(** * XrInputSourceFacade: a shallow embedding and its verified properties

    Source: packages/troika-xr/src/webxr-wip/facade/XrInputSourceFacade.js

    The facade turns the per-frame pose and gamepad samples of one XR input
    source, the session's discrete select/squeeze events and the scene's ray
    events into [notifyWorld] notifications, haptic pulses and secondary
    events on the ray's target.  The embedding keeps the JavaScript shape of
    the class: one record for the fields of [this], one monad for methods
    that read and write those fields, call out to the world and may throw. *)

From Stdlib Require Import ZArith Lia Bool.
From Stdlib Require Import PrimFloat SpecFloat FloatOps FloatAxioms.
From stdpp Require Import base option list gmap strings.

Open Scope Z_scope.

(* A decimal literal denotes the nearest binary64 value, as it does in
   JavaScript. *)
Set Warnings "-inexact-float".

(** ** JavaScript values used by the facade *)

(** Object identity (sessions, spaces, scene objects, facades, actuators). *)
Definition ObjId := nat.
Bind Scope nat_scope with ObjId.

(** An element of [this._buttonPresses]: a hole or [undefined], the [null]
    written on release, or the [Date.now()] written on press. *)
Inductive PressedTime :=
| PTundefined
| PTnull
| PTtime (t : Z).

(** [!!pressedTimes[i]]: a number is truthy unless it is 0. *)
Definition truthy (v : PressedTime) : bool :=
  match v with
  | PTtime t => negb (t =? 0)
  | _ => false
  end.

(** [a[i]] on a JavaScript array: [undefined] out of range. *)
Definition arr_get (a : list PressedTime) (i : nat) : PressedTime :=
  default PTundefined (a !! i).

(** [a[i] = v]: writes in range, and past the end extends the array with
    holes up to [i]. *)
Definition arr_set (i : nat) (v : PressedTime) (a : list PressedTime)
  : list PressedTime :=
  if decide (i < length a)%nat then <[i:=v]> a
  else a ++ replicate (i - length a) PTundefined ++ [v].

(** [a.length = n]: truncates, or grows with holes. *)
Definition arr_set_length (n : nat) (a : list PressedTime) : list PressedTime :=
  take n a ++ replicate (n - length a) PTundefined.

(** [(x || 0)] on an array element that is a number or absent: [undefined],
    [0], [-0] and [NaN] are falsy. *)
Definition or_zero (v : option float) : float :=
  match v with
  | Some x => if PrimFloat.eqb x 0%float || PrimFloat.is_nan x then 0%float else x
  | None => 0%float
  end.

(** [/suffix$/.test(s)]. *)
Definition ends_with (suffix s : string) : bool :=
  String.prefix (String.rev suffix) (String.rev s).

(** [/^prefix/.test(s)]. *)
Definition starts_with (prefix s : string) : bool :=
  String.prefix prefix s.

(** ** Data of the tracking runtime and of three.js *)

Definition Vector3 : Type := float * float * float.
Definition Quaternion : Type := float * float * float * float.

Record Ray := { origin : Vector3; direction : Vector3 }.

(** An [XRPose]: [transform.position] and [transform.orientation]. *)
Record Pose := { position : Vector3; orientation : Quaternion }.

Record GamepadButton := { pressed : bool }.

Record Gamepad := {
  buttons : list GamepadButton;
  axes : list float;
  mapping : string;
  hapticActuators : option (list ObjId)
}.

Record XRInputSource := {
  targetRayMode : string;
  targetRaySpace : ObjId;
  gripSpace : option ObjId;
  gamepad : option Gamepad
}.

(** ** Events *)

(** The [type] of a pointer action or of a scene ray event. *)
Inductive EventType :=
| mousemove | mouseover | mouseout | mousedown | mouseup | click | wheel.

Global Instance EventType_eq_dec : EqDecision EventType.
Proof. solve_decision. Defined.

Definition SCENE_EVENTS : list EventType :=
  [mousemove; mouseover; mouseout; mousedown; mouseup; click].

Definition XRSESSION_EVENTS : list string :=
  ["selectstart"; "select"; "selectend";
   "squeezestart"; "squeeze"; "squeezeend"]%string.

Definition CLICK_MAX_DUR : Z := 300.

(** The payload of [notifyWorld('rayPointerAction', ...)]; a field the object
    literal leaves out is [None]. *)
Record Action := {
  ray : Ray;
  type : EventType;
  button : option Z;
  deltaX : option float;
  deltaY : option float;
  deltaMode : option Z
}.

Definition buttonAction (r : Ray) (t : EventType) (b : Z) : Action :=
  {| ray := r; type := t; button := Some b;
     deltaX := None; deltaY := None; deltaMode := None |}.

Definition wheelAction (r : Ray) (dx dy : float) : Action :=
  {| ray := r; type := wheel; button := None;
     deltaX := Some dx; deltaY := Some dy; deltaMode := Some 0 |}.

(** ** Gamepad state tracking: the two loops of [_trackGamepadState] *)

Section ButtonLoop.

Variable isPointing : bool.
Variable now : Z.
Variable r : Ray.

(** What one iteration notifies for button [i], given [buttons[i].pressed]
    and the stored [pressedTimes[i]]. *)
Definition buttonActions (i : nat) (p : bool) (cur : PressedTime) : list Action :=
  if negb (Bool.eqb p (truthy cur)) then
    if isPointing then
      buttonAction r (if p then mousedown else mouseup) (Z.of_nat i)
      :: (if truthy cur && negb p &&
             match cur with
             | PTtime t0 => now - t0 <=? CLICK_MAX_DUR
             | _ => false
             end
          then [buttonAction r click (Z.of_nat i)]
          else [])
    else []
  else [].

(** What one iteration leaves in [pressedTimes[i]]. *)
Definition nextTime (p : bool) (cur : PressedTime) : PressedTime :=
  if negb (Bool.eqb p (truthy cur)) then (if p then PTtime now else PTnull)
  else cur.

(** The body of the button loop for index [i]; [len] is [buttons.length].
    The length assignment is the last statement of the body. *)
Definition buttonStep (len i : nat) (b : GamepadButton)
    (pt : list PressedTime) : list Action * list PressedTime :=
  let cur := arr_get pt i in
  let pt1 :=
    if negb (Bool.eqb (pressed b) (truthy cur))
    then arr_set i (if pressed b then PTtime now else PTnull) pt
    else pt in
  (buttonActions i (pressed b) cur, arr_set_length len pt1).

(** [for (let i = 0; i < buttons.length; i++)], entered at index [i] with
    the buttons from [i] on still to visit. *)
Fixpoint buttonLoop (len i : nat) (bs : list GamepadButton)
    (pt : list PressedTime) : list Action * list PressedTime :=
  match bs with
  | [] => ([], pt)
  | b :: bs' =>
      let '(acts, pt1) := buttonStep len i b pt in
      let '(acts', pt2) := buttonLoop len (S i) bs' pt1 in
      (acts ++ acts', pt2)
  end.

Definition trackButtons (bs : list GamepadButton) (pt : list PressedTime)
  : list Action * list PressedTime :=
  buttonLoop (length bs) 0 bs pt.

End ButtonLoop.

Section AxisLoop.

(** [Math.hypot]: ECMAScript leaves its result implementation-approximated,
    so the embedding takes it as given. *)
Variable hypot : float → float → float.
Variable isPointing : bool.
Variable r : Ray.

(** [(axes[i] || 0) * 10]. *)
Definition axisDelta (axes : list float) (i : nat) : float :=
  PrimFloat.mul (or_zero (axes !! i)) 10%float.

(** The body of the axis loop at index [i]: the pair [axes[i]], [axes[i+1]]. *)
Definition wheelActions (axes : list float) (i : nat) : list Action :=
  let deltaX := axisDelta axes i in
  let deltaY := axisDelta axes (i + 1) in
  if PrimFloat.ltb 0.1%float (hypot deltaX deltaY) then
    if isPointing then [wheelAction r deltaX deltaY] else []
  else [].

(** [for (let i = 0; i < axes.length; i += 2)], entered at index [i]; the
    fuel bounds the remaining iterations. *)
Fixpoint axisLoop (fuel : nat) (axes : list float) (i : nat) : list Action :=
  match fuel with
  | O => []
  | S fuel' =>
      if decide (i < length axes)%nat
      then wheelActions axes i ++ axisLoop fuel' axes (i + 2)
      else []
  end.

Definition trackAxes (axes : list float) : list Action :=
  axisLoop (length axes) axes 0.

End AxisLoop.

(** ** The facade's state *)

(** A JavaScript reference that may be [undefined] or [null]. *)
Inductive JsRef :=
| JSundefined
| JSnull
| JSobject (o : ObjId).

Global Instance JsRef_eq_dec : EqDecision JsRef.
Proof. solve_decision. Defined.

(** The raycaster's intersection record; the facade only passes it on. *)
Definition Intersection := ObjId.

(** A child configuration object ([this.cursor], [this.targetRay],
    [this.grip]) with the fields [afterUpdate] writes into it. *)
Record ChildConfig := {
  facade : string;
  key : option string;
  cfg_targetRayPose : option Pose;
  cfg_gripPose : option Pose;
  cfg_rayIntersection : option Intersection;
  cfg_xrInputSource : option XRInputSource
}.

Definition EventType_code (t : EventType) : nat :=
  match t with
  | mousemove => 0 | mouseover => 1 | mouseout => 2 | mousedown => 3
  | mouseup => 4 | click => 5 | wheel => 6
  end%nat.

Definition EventType_of_code (n : nat) : EventType :=
  match n with
  | 0 => mousemove | 1 => mouseover | 2 => mouseout | 3 => mousedown
  | 4 => mouseup | 5 => click | _ => wheel
  end%nat.

Global Instance EventType_countable : Countable EventType.
Proof.
  apply (inj_countable' EventType_code EventType_of_code).
  intros []; reflexivity.
Defined.

(** The fields of [this], followed by the two listener registries the facade
    writes to: the pairs (session, type) on which [_onSessionEvent] is
    registered and the pairs (scene, type) on which [_onSceneRayEvent] is. *)
Record Facade := {
  self : ObjId;
  xrInputSource : option XRInputSource;
  xrSession : JsRef;
  xrReferenceSpace : JsRef;
  targetRayPose : option Pose;
  gripPose : option Pose;
  rayIntersection : option Intersection;
  cursor : option ChildConfig;
  targetRay : option ChildConfig;
  grip : option ChildConfig;
  isPointing : bool;
  children : list (option ChildConfig);
  _ray : Ray;
  _lastXrSession : JsRef;
  _buttonPresses : option (list PressedTime);
  sessionListeners : gset (ObjId * string);
  sceneListeners : gset (ObjId * EventType)
}.

Definition set_props (src : option XRInputSource) (session : JsRef)
    (pointing : bool) (s : Facade) : Facade :=
  {| self := self s; xrInputSource := src; xrSession := session;
     xrReferenceSpace := xrReferenceSpace s; targetRayPose := targetRayPose s;
     gripPose := gripPose s; rayIntersection := rayIntersection s;
     cursor := cursor s; targetRay := targetRay s; grip := grip s;
     isPointing := pointing; children := children s; _ray := _ray s;
     _lastXrSession := _lastXrSession s; _buttonPresses := _buttonPresses s;
     sessionListeners := sessionListeners s;
     sceneListeners := sceneListeners s |}.

Definition set_poses (tp gp : option Pose) (s : Facade) : Facade :=
  {| self := self s; xrInputSource := xrInputSource s; xrSession := xrSession s;
     xrReferenceSpace := xrReferenceSpace s; targetRayPose := tp;
     gripPose := gp; rayIntersection := rayIntersection s;
     cursor := cursor s; targetRay := targetRay s; grip := grip s;
     isPointing := isPointing s; children := children s; _ray := _ray s;
     _lastXrSession := _lastXrSession s; _buttonPresses := _buttonPresses s;
     sessionListeners := sessionListeners s;
     sceneListeners := sceneListeners s |}.

Definition set_rayIntersection (x : option Intersection) (s : Facade) : Facade :=
  {| self := self s; xrInputSource := xrInputSource s; xrSession := xrSession s;
     xrReferenceSpace := xrReferenceSpace s; targetRayPose := targetRayPose s;
     gripPose := gripPose s; rayIntersection := x;
     cursor := cursor s; targetRay := targetRay s; grip := grip s;
     isPointing := isPointing s; children := children s; _ray := _ray s;
     _lastXrSession := _lastXrSession s; _buttonPresses := _buttonPresses s;
     sessionListeners := sessionListeners s;
     sceneListeners := sceneListeners s |}.

Definition set_configs (c t g : option ChildConfig)
    (ch : list (option ChildConfig)) (s : Facade) : Facade :=
  {| self := self s; xrInputSource := xrInputSource s; xrSession := xrSession s;
     xrReferenceSpace := xrReferenceSpace s; targetRayPose := targetRayPose s;
     gripPose := gripPose s; rayIntersection := rayIntersection s;
     cursor := c; targetRay := t; grip := g;
     isPointing := isPointing s; children := ch; _ray := _ray s;
     _lastXrSession := _lastXrSession s; _buttonPresses := _buttonPresses s;
     sessionListeners := sessionListeners s;
     sceneListeners := sceneListeners s |}.

Definition set__ray (x : Ray) (s : Facade) : Facade :=
  {| self := self s; xrInputSource := xrInputSource s; xrSession := xrSession s;
     xrReferenceSpace := xrReferenceSpace s; targetRayPose := targetRayPose s;
     gripPose := gripPose s; rayIntersection := rayIntersection s;
     cursor := cursor s; targetRay := targetRay s; grip := grip s;
     isPointing := isPointing s; children := children s; _ray := x;
     _lastXrSession := _lastXrSession s; _buttonPresses := _buttonPresses s;
     sessionListeners := sessionListeners s;
     sceneListeners := sceneListeners s |}.

Definition set__lastXrSession (x : JsRef) (s : Facade) : Facade :=
  {| self := self s; xrInputSource := xrInputSource s; xrSession := xrSession s;
     xrReferenceSpace := xrReferenceSpace s; targetRayPose := targetRayPose s;
     gripPose := gripPose s; rayIntersection := rayIntersection s;
     cursor := cursor s; targetRay := targetRay s; grip := grip s;
     isPointing := isPointing s; children := children s; _ray := _ray s;
     _lastXrSession := x; _buttonPresses := _buttonPresses s;
     sessionListeners := sessionListeners s;
     sceneListeners := sceneListeners s |}.

Definition set__buttonPresses (x : option (list PressedTime)) (s : Facade)
  : Facade :=
  {| self := self s; xrInputSource := xrInputSource s; xrSession := xrSession s;
     xrReferenceSpace := xrReferenceSpace s; targetRayPose := targetRayPose s;
     gripPose := gripPose s; rayIntersection := rayIntersection s;
     cursor := cursor s; targetRay := targetRay s; grip := grip s;
     isPointing := isPointing s; children := children s; _ray := _ray s;
     _lastXrSession := _lastXrSession s; _buttonPresses := x;
     sessionListeners := sessionListeners s;
     sceneListeners := sceneListeners s |}.

Definition set_sessionListeners (x : gset (ObjId * string)) (s : Facade)
  : Facade :=
  {| self := self s; xrInputSource := xrInputSource s; xrSession := xrSession s;
     xrReferenceSpace := xrReferenceSpace s; targetRayPose := targetRayPose s;
     gripPose := gripPose s; rayIntersection := rayIntersection s;
     cursor := cursor s; targetRay := targetRay s; grip := grip s;
     isPointing := isPointing s; children := children s; _ray := _ray s;
     _lastXrSession := _lastXrSession s; _buttonPresses := _buttonPresses s;
     sessionListeners := x;
     sceneListeners := sceneListeners s |}.

Definition set_sceneListeners (x : gset (ObjId * EventType)) (s : Facade)
  : Facade :=
  {| self := self s; xrInputSource := xrInputSource s; xrSession := xrSession s;
     xrReferenceSpace := xrReferenceSpace s; targetRayPose := targetRayPose s;
     gripPose := gripPose s; rayIntersection := rayIntersection s;
     cursor := cursor s; targetRay := targetRay s; grip := grip s;
     isPointing := isPointing s; children := children s; _ray := _ray s;
     _lastXrSession := _lastXrSession s; _buttonPresses := _buttonPresses s;
     sessionListeners := sessionListeners s;
     sceneListeners := x |}.

(** ** Effects on the world *)

(** The DOM event [_onSceneRayEvent] builds: [new Event(name, {bubbles})]
    with [eventSource] assigned afterwards. *)
Record XrEvent := {
  ev_name : string;
  ev_bubbles : bool;
  ev_eventSource : ObjId
}.

Inductive Effect :=
| RayPointerMotion (r : Ray)               (* notifyWorld('rayPointerMotion', ray) *)
| RayPointerAction (a : Action)            (* notifyWorld('rayPointerAction', {...}) *)
| Pulse (actuator : ObjId) (value duration : float)
| DispatchEvent (target : ObjId) (e : XrEvent)
| SuperAfterUpdate
| SuperDestructor.

(** ** The method monad

    A method reads and writes the fields of [this], calls out to the world
    and either returns or throws a [TypeError] (reading a property of
    [null]).  What it wrote and emitted before a throw stays. *)
Definition M (A : Type) : Type := Facade → Facade * list Effect * option A.

Definition ret {A} (x : A) : M A := λ s, (s, [], Some x).

Definition bind {A B} (m : M A) (f : A → M B) : M B := λ s,
  let '(s1, e1, a) := m s in
  match a with
  | None => (s1, e1, None)
  | Some x => let '(s2, e2, b) := f x s1 in (s2, e1 ++ e2, b)
  end.

Definition get : M Facade := λ s, (s, [], Some s).
Definition modify (f : Facade → Facade) : M unit := λ s, (f s, [], Some tt).
Definition emit (es : list Effect) : M unit := λ s, (s, es, Some tt).
Definition throw {A} : M A := λ s, (s, [], None).

(** Reading a property of [x]: throws when [x] is [null]. *)
Definition deref {A} (x : option A) : M A :=
  match x with
  | Some v => ret v
  | None => throw
  end.

Notation "x <- m ;; k" := (bind m (λ x, k))
  (at level 100, m at next level, right associativity).
Notation "m ;;; k" := (bind m (λ _, k))
  (at level 100, right associativity).

Definition final {A} (o : Facade * list Effect * option A) : Facade := o.1.1.
Definition effects {A} (o : Facade * list Effect * option A) : list Effect := o.1.2.
Definition returned {A} (o : Facade * list Effect * option A) : option A := o.2.

(** [keeps I m]: whatever [m] does, and whether it returns or throws, a
    facade that satisfies [I] before satisfies it after. *)
Definition keeps {A} (I : Facade → Prop) (m : M A) : Prop :=
  ∀ s, I s → I (final (m s)).

(** [wp m Q s]: run from [s], the method [m] returns (it does not throw),
    and its result and the facade it leaves satisfy [Q]. *)
Definition wp {A} (m : M A) (Q : A → Facade → Prop) (s : Facade) : Prop :=
  ∃ a, returned (m s) = Some a ∧ Q a (final (m s)).

(** The actions among the effects, in order. *)
Definition actionsOf (es : list Effect) : list Action :=
  omap (λ e, match e with RayPointerAction a => Some a | _ => None end) es.

(** The events dispatched to scene objects, in order. *)
Definition dispatchesOf (es : list Effect) : list (ObjId * XrEvent) :=
  omap (λ e, match e with DispatchEvent t ev => Some (t, ev) | _ => None end) es.

(** ** The module's functions and the class's methods *)

(** [toggleEvents(target, on, eventTypes, handler)] for one fixed handler,
    on the registry of that handler.  Adding a registered listener again and
    removing an absent one change nothing, as on a DOM [EventTarget]. *)
Definition toggleEvents `{Countable T} (target : JsRef) (on : bool)
    (eventTypes : list T) (reg : gset (ObjId * T)) : gset (ObjId * T) :=
  match target with
  | JSobject o =>
      foldl (λ acc ty, if on then acc ∪ {[ (o, ty) ]} else acc ∖ {[ (o, ty) ]})
            reg eventTypes
  | _ => reg
  end.

Record HapticPulse := { value : float; duration : float }.

(** [x || d] on numbers. *)
Definition or_default (x d : float) : float :=
  if PrimFloat.eqb x 0%float || PrimFloat.is_nan x then d else x.

Definition HAPTICS_mouseover : HapticPulse := {| value := 0.3; duration := 10 |}.
Definition HAPTICS_click : HapticPulse := {| value := 1; duration := 20 |}.

(** The three module-level configuration objects [DEFAULT_CURSOR],
    [DEFAULT_TARGET_RAY] and [DEFAULT_GRIP].  They are created once, when
    the module is loaded, and [utils.assign] with a single argument returns
    that argument: every constructor stores the objects themselves, and
    [afterUpdate] of any facade that still holds them writes into them.
    [Defaults] is the content of the three objects at some moment. *)
Record Defaults := {
  DEFAULT_CURSOR : ChildConfig;
  DEFAULT_TARGET_RAY : ChildConfig;
  DEFAULT_GRIP : ChildConfig
}.

(** The content of the three objects when the module is loaded, before any
    facade has written into them. *)
Definition Defaults_at_load : Defaults :=
  {| DEFAULT_CURSOR :=
       {| facade := "CursorFacade"; key := None; cfg_targetRayPose := None;
          cfg_gripPose := None; cfg_rayIntersection := None;
          cfg_xrInputSource := None |};
     DEFAULT_TARGET_RAY :=
       {| facade := "TargetRayFacade"; key := None; cfg_targetRayPose := None;
          cfg_gripPose := None; cfg_rayIntersection := None;
          cfg_xrInputSource := None |};
     DEFAULT_GRIP :=
       {| facade := "GripFacade"; key := None; cfg_targetRayPose := None;
          cfg_gripPose := None; cfg_rayIntersection := None;
          cfg_xrInputSource := None |} |}.

(** A scene ray event as [_onSceneRayEvent] reads it; [se_eventSource] is
    [e.nativeEvent.eventSource]. *)
Record SceneEvent := {
  se_type : EventType;
  se_target : ObjId;
  se_currentTarget : ObjId;
  se_eventSource : option ObjId;
  se_intersection : option Intersection;
  se_button : option Z
}.

(** What a frame callback finds outside [this]: the camera facade's
    [offsetReferenceSpace], [xrFrame.getPose] and [Date.now()]. *)
Record FrameEnv := {
  offsetReferenceSpace : option ObjId;
  getPose : ObjId → ObjId → option Pose;
  date_now : Z
}.

(** [gamepad && gamepad.mapping === 'xr-standard'], as a boolean. *)
Definition xrStandard (src : XRInputSource) : bool :=
  match gamepad src with
  | Some g => bool_decide (mapping g = "xr-standard")
  | None => false
  end.

Section Methods.

(** The two button ids imported from [xrStandardGamepadMapping], which is
    not among the sources; [Math.hypot]; and three.js's
    [Vector3.applyQuaternion]. *)
Variables BUTTON_TRIGGER BUTTON_SQUEEZE : Z.
Variable hypot : float → float → float.
Variable applyQuaternion : Vector3 → Quaternion → Vector3.

(** The constructor: fields as assigned, and the scene listeners added on
    [getSceneFacade()].  The three child configurations are the shared
    module-level objects, with the content [shared] they have when the
    constructor runs: pristine for the first facade, and as the last
    [afterUpdate] of an earlier facade left them otherwise.  The model
    follows one facade: it holds the content of its configurations as
    values, and writes of other facades into the shared objects after its
    construction are not among the inputs of a history. *)
Definition constructor (shared : Defaults) (this scene : ObjId) : Facade :=
  {| self := this;
     xrInputSource := None; xrSession := JSnull; xrReferenceSpace := JSnull;
     targetRayPose := None; gripPose := None; rayIntersection := None;
     cursor := Some (DEFAULT_CURSOR shared);
     targetRay := Some (DEFAULT_TARGET_RAY shared);
     grip := Some (DEFAULT_GRIP shared);
     isPointing := true;
     children := [None; None; None];
     _ray := {| origin := (0, 0, 0)%float; direction := (0, 0, (-1))%float |};
     _lastXrSession := JSundefined;
     _buttonPresses := None;
     sessionListeners := ∅;
     sceneListeners := toggleEvents (JSobject scene) true SCENE_EVENTS ∅ |}.

Definition _isXrStandardGamepad : M bool :=
  s <- get ;;
  src <- deref (xrInputSource s) ;;
  ret (xrStandard src).

(** The fields [afterUpdate] writes into an active child configuration. *)
Definition fillConfig (k : string) (s : Facade) (c : ChildConfig) : ChildConfig :=
  {| facade := facade c; key := Some k;
     cfg_targetRayPose := targetRayPose s; cfg_gripPose := gripPose s;
     cfg_rayIntersection := rayIntersection s;
     cfg_xrInputSource := xrInputSource s |}.

Definition afterUpdate : M unit :=
  s <- get ;;
  (if decide (xrSession s ≠ _lastXrSession s) then
     modify (set__lastXrSession (xrSession s)) ;;;
     modify (λ s', set_sessionListeners
                     (toggleEvents (_lastXrSession s) false XRSESSION_EVENTS
                                   (sessionListeners s')) s') ;;;
     std <- _isXrStandardGamepad ;;
     if negb std then
       modify (λ s', set_sessionListeners
                       (toggleEvents (xrSession s) true XRSESSION_EVENTS
                                     (sessionListeners s')) s')
     else ret tt
   else ret tt) ;;;
  src <- deref (xrInputSource s) ;;
  let notScreen := negb (bool_decide (targetRayMode src = "screen")) in
  let tracked := bool_decide (targetRayMode src = "tracked-pointer") in
  let cursorOn := notScreen && isPointing s in
  let targetRayOn := tracked && isPointing s in
  let gripOn := tracked && bool_decide (is_Some (gripPose s)) in
  let fill (on : bool) k (c : option ChildConfig) :=
    if on then fillConfig k s <$> c else c in
  let child (on : bool) k (c : option ChildConfig) :=
    if on then fillConfig k s <$> c else None in
  modify (set_configs
            (fill cursorOn "cursor" (cursor s))
            (fill targetRayOn "targetRay" (targetRay s))
            (fill gripOn "grip" (grip s))
            [child cursorOn "cursor" (cursor s);
             child targetRayOn "targetRay" (targetRay s);
             child gripOn "grip" (grip s)]) ;;;
  emit [SuperAfterUpdate].

Definition _trackGamepadState (now : Z) (g : Gamepad) : M unit :=
  s <- get ;;
  let pressedTimes := default [] (_buttonPresses s) in
  let '(acts, pt) :=
    trackButtons (isPointing s) now (_ray s) (buttons g) pressedTimes in
  modify (set__buttonPresses (Some pt)) ;;;
  emit (RayPointerAction <$> acts) ;;;
  emit (RayPointerAction <$> trackAxes hypot (isPointing s) (_ray s) (axes g)).

(** The pose update of [_onXrFrame]: the block guarded by
    [if (offsetReferenceSpace)]. *)
Definition resolvePoses (env : FrameEnv) : M unit :=
  s <- get ;;
  match offsetReferenceSpace env with
  | Some ref =>
      src <- deref (xrInputSource s) ;;
      let pose := getPose env (targetRaySpace src) ref in
      match pose with
      | Some p =>
          if isPointing s then
            let ray' := {| origin := position p;
                           direction := applyQuaternion (0, 0, (-1))%float
                                                        (orientation p) |} in
            modify (set__ray ray') ;;; emit [RayPointerMotion ray']
          else ret tt
      | None => ret tt
      end ;;;
      modify (λ s', set_poses pose
                      (match gripSpace src with
                       | Some gs => getPose env gs ref
                       | None => None
                       end) s')
  | None => ret tt
  end.

Definition _onXrFrame (env : FrameEnv) : M unit :=
  s <- get ;;
  resolvePoses env ;;;
  std <- _isXrStandardGamepad ;;
  (if std then
     src <- deref (xrInputSource s) ;;
     g <- deref (gamepad src) ;;
     _trackGamepadState (date_now env) g
   else ret tt) ;;;
  afterUpdate.

Definition _onSessionEvent (e_type : string) : M unit :=
  s <- get ;;
  emit [RayPointerAction
          {| ray := _ray s;
             type := if ends_with "start" e_type then mousedown
                     else if ends_with "end" e_type then mouseup
                     else click;
             button := Some (if starts_with "squeeze" e_type
                             then BUTTON_SQUEEZE else BUTTON_TRIGGER);
             deltaX := None; deltaY := None; deltaMode := None |}].

Definition TRIGGER_EVENTS (t : EventType) : option string :=
  match t with
  | mousedown => Some "xrselectstart"
  | mouseup => Some "xrselectend"
  | click => Some "xrselect"
  | _ => None
  end%string.

Definition SQUEEZE_EVENTS (t : EventType) : option string :=
  match t with
  | mousedown => Some "xrsqueezestart"
  | mouseup => Some "xrsqueezeend"
  | click => Some "xrsqueeze"
  | _ => None
  end%string.

(** The object literal with computed keys: a key written twice keeps its
    last value. *)
Definition RAY_TARGET_EVENTS : gmap Z (EventType → option string) :=
  <[BUTTON_SQUEEZE := SQUEEZE_EVENTS]> (<[BUTTON_TRIGGER := TRIGGER_EVENTS]> ∅).

(** [RAY_TARGET_EVENTS[e.button] && RAY_TARGET_EVENTS[e.button][e.type]]. *)
Definition xrTargetEvent (e : SceneEvent) : option string :=
  b ← se_button e; tbl ← RAY_TARGET_EVENTS !! b; tbl (se_type e).

(** [gamepad && gamepad.hapticActuators && gamepad.hapticActuators[0]]. *)
Definition firstActuator (src : XRInputSource) : option ObjId :=
  match gamepad src with
  | Some g =>
      match hapticActuators g with
      | Some (a :: _) => Some a
      | _ => None
      end
  | None => None
  end.

Definition _onSceneRayEvent (e : SceneEvent) : M unit :=
  s <- get ;;
  if decide (se_eventSource e = Some (self s)) then
    modify (set_rayIntersection (se_intersection e)) ;;;
    afterUpdate ;;;
    let isScene := bool_decide (se_target e = se_currentTarget e) in
    let hapticPulse :=
      if decide (se_type e = click) then Some HAPTICS_click
      else if bool_decide (se_type e = mouseover) && negb isScene
           then Some HAPTICS_mouseover
           else None in
    match hapticPulse with
    | Some hp =>
        src <- deref (xrInputSource s) ;;
        match firstActuator src with
        | Some actuator =>
            emit [Pulse actuator (or_default (value hp) 1)
                        (or_default (duration hp) 100)]
        | None => ret tt
        end
    | None => ret tt
    end ;;;
    match xrTargetEvent e with
    | Some name =>
        emit [DispatchEvent (se_target e)
                {| ev_name := name; ev_bubbles := true;
                   ev_eventSource := self s |}]
    | None => ret tt
    end
  else ret tt.

Definition destructor (scene : ObjId) : M unit :=
  s <- get ;;
  modify (λ s', set_sessionListeners
                  (toggleEvents (xrSession s) false XRSESSION_EVENTS
                                (sessionListeners s')) s') ;;;
  modify (λ s', set_sceneListeners
                  (toggleEvents (JSobject scene) false SCENE_EVENTS
                                (sceneListeners s')) s') ;;;
  emit [SuperDestructor].

End Methods.

(** ** Vocabulary of the statements *)

Section Vocabulary.

Variable isPointing : bool.
Variable now : Z.
Variable r : Ray.

(** The action lists of the iterations from index [i] on, each computed
    from the array the poll started with. *)
Fixpoint loopActions (i : nat) (bs : list GamepadButton)
    (pt : list PressedTime) : list Action :=
  match bs with
  | [] => []
  | b :: bs' =>
      buttonActions isPointing now r i (pressed b) (arr_get pt i)
      ++ loopActions (S i) bs' pt
  end.

End Vocabulary.

(** [pressedTimes[i]] as stored in the facade. *)
Definition storedTime (i : nat) (s : Facade) : PressedTime :=
  arr_get (default [] (_buttonPresses s)) i.

(** [buttons[i].pressed], when the gamepad has a button [i]. *)
Definition pressedAt (i : nat) (g : Gamepad) : option bool :=
  pressed <$> buttons g !! i.

(** The actions among the effects whose [button] is the index [i]. *)
Definition buttonActionsOf (i : nat) (es : list Effect) : list Action :=
  filter (λ a, button a = Some (Z.of_nat i)) (actionsOf es).

(** The parent assigns the [isPointing] prop. *)
Definition setPointing (p : bool) (s : Facade) : Facade :=
  set_props (xrInputSource s) (xrSession s) p s.

(** Reference instances of the two host functions, for evaluating the
    methods on concrete inputs: the textbook formula for [Math.hypot] and
    three.js's quaternion rotation. *)
Definition hypot_sqrt (x y : float) : float :=
  PrimFloat.sqrt (x * x + y * y)%float.

Definition applyQuaternion_three (v : Vector3) (q : Quaternion) : Vector3 :=
  let '(x, y, z) := v in
  let '(qx, qy, qz, qw) := q in
  let ix := (qw * x + qy * z - qz * y)%float in
  let iy := (qw * y + qz * x - qx * z)%float in
  let iz := (qw * z + qx * y - qy * x)%float in
  let iw := (- qx * x - qy * y - qz * z)%float in
  ((ix * qw + iw * - qx + iy * - qz - iz * - qy)%float,
   (iy * qw + iw * - qy + iz * - qx - ix * - qz)%float,
   (iz * qw + iw * - qz + ix * - qy - iy * - qx)%float).

(** Sample inputs: an xr-standard gamepad with the given [pressed] flags
    and axes, and a tracked-pointer input source that carries it. *)
Definition sampleGamepad (ps : list bool) (ax : list float) : Gamepad :=
  {| buttons := (λ p, {| pressed := p |}) <$> ps; axes := ax;
     mapping := "xr-standard"; hapticActuators := None |}.

Definition sampleSource (g : option Gamepad) : XRInputSource :=
  {| targetRayMode := "tracked-pointer"; targetRaySpace := 1%nat;
     gripSpace := Some 2%nat; gamepad := g |}.

(** The first facade constructed after the module is loaded (object 7), in
    the scene (object 8). *)
Definition sampleFacade : Facade := constructor Defaults_at_load 7%nat 8%nat.

Section Traces.

Variables BUTTON_TRIGGER BUTTON_SQUEEZE : Z.
Variable hypot : float → float → float.
Variable applyQuaternion : Vector3 → Quaternion → Vector3.

(** One gamepad poll with the [isPointing] prop as the parent last set it. *)
Definition pollWith (p : bool) (now : Z) (g : Gamepad) (s : Facade)
  : Facade * list Effect * option unit :=
  _trackGamepadState hypot now g (setPointing p s).

(** A run of polls, each with its own [isPointing], clock and sample. *)
Fixpoint pollAll (ps : list (bool * Z * Gamepad)) (s : Facade)
  : Facade * list Effect :=
  match ps with
  | [] => (s, [])
  | (p, now, g) :: ps' =>
      let o := pollWith p now g s in
      let '(s', es) := pollAll ps' (final o) in
      (s', effects o ++ es)
  end.

(** What can happen to a facade: the parent assigns props, the framework
    calls [afterUpdate], the runtime delivers a frame, a session or the
    scene fires an event.  An event reaches its handler only if the handler
    is registered for it. *)
Inductive Input :=
| InProps (src : option XRInputSource) (session : JsRef) (pointing : bool)
| InUpdate
| InFrame (env : FrameEnv)
| InSessionEvent (session : ObjId) (name : string)
| InSceneEvent (scene : ObjId) (e : SceneEvent).

Definition step (i : Input) (s : Facade) : Facade * list Effect :=
  match i with
  | InProps src session p => (set_props src session p s, [])
  | InUpdate => (afterUpdate s).1
  | InFrame env => (_onXrFrame hypot applyQuaternion env s).1
  | InSessionEvent o name =>
      if decide ((o, name) ∈ sessionListeners s)
      then (_onSessionEvent BUTTON_TRIGGER BUTTON_SQUEEZE name s).1
      else (s, [])
  | InSceneEvent o e =>
      if decide ((o, se_type e) ∈ sceneListeners s)
      then (_onSceneRayEvent BUTTON_TRIGGER BUTTON_SQUEEZE e s).1
      else (s, [])
  end.

Fixpoint run (ins : list Input) (s : Facade) : Facade * list Effect :=
  match ins with
  | [] => (s, [])
  | i :: ins' =>
      let '(s1, e1) := step i s in
      let '(s2, e2) := run ins' s1 in
      (s2, e1 ++ e2)
  end.

End Traces.

(** The parent only ever assigns an input source with a standard-mapped
    gamepad. *)
Definition standardProps (i : Input) : Prop :=
  match i with
  | InProps src _ _ => ∃ x, src = Some x ∧ xrStandard x = true
  | _ => True
  end.

(** The facade has no input source yet, or one with a standard-mapped
    gamepad. *)
Definition standardOrUnset (s : Facade) : Prop :=
  ∀ src, xrInputSource s = Some src → xrStandard src = true.

(** The type and button of each action among the effects. *)
Definition actionKinds (es : list Effect) : list (EventType * option Z) :=
  (λ a, (type a, button a)) <$> actionsOf es.

(** No reference space is available to the frames among the inputs. *)
Definition noReferenceSpace (i : Input) : Prop :=
  match i with
  | InFrame env => offsetReferenceSpace env = None
  | _ => True
  end.

(** The table of secondary events as the specification words it. *)
Definition secondaryEvent_spec (trigger squeeze : Z) (b : option Z)
    (t : EventType) : option string :=
  match b with
  | Some b =>
      if decide (b = trigger) then
        match t with
        | mousedown => Some "xrselectstart"
        | mouseup => Some "xrselectend"
        | click => Some "xrselect"
        | _ => None
        end
      else if decide (b = squeeze) then
        match t with
        | mousedown => Some "xrsqueezestart"
        | mouseup => Some "xrsqueezeend"
        | click => Some "xrsqueeze"
        | _ => None
        end
      else None
  | None => None
  end%string.

(** ** Vocabulary of the further properties *)

(** The haptic pulses, in order: actuator, value, duration. *)
Definition pulsesOf (es : list Effect) : list (ObjId * float * float) :=
  omap (λ e, match e with Pulse a v d => Some (a, v, d) | _ => None end) es.

(** Every registered session listener is for one of the six session events
    and sits on the session object [afterUpdate] saw last. *)
Definition onLastSession (s : Facade) : Prop :=
  ∀ o name, (o, name) ∈ sessionListeners s →
            _lastXrSession s = JSobject o ∧ name ∈ XRSESSION_EVENTS.

(** Every registered scene listener is for one of the six scene events and
    sits on the scene facade [scene]. *)
Definition onScene (scene : ObjId) (s : Facade) : Prop :=
  ∀ o ty, (o, ty) ∈ sceneListeners s → o = scene ∧ ty ∈ SCENE_EVENTS.

(** The parent never assigns an input source with a standard-mapped
    gamepad. *)
Definition nonStandardProps (i : Input) : Prop :=
  match i with
  | InProps src _ _ => ∀ x, src = Some x → xrStandard x = false
  | _ => True
  end.

(** The facade has no input source yet, or one whose gamepad is absent or
    not standard-mapped. *)
Definition nonStandardOrUnset (s : Facade) : Prop :=
  ∀ src, xrInputSource s = Some src → xrStandard src = false.

(** The six names of the secondary events. *)
Definition XR_TARGET_EVENT_NAMES : list string :=
  ["xrselectstart"; "xrselectend"; "xrselect";
   "xrsqueezestart"; "xrsqueezeend"; "xrsqueeze"]%string.

(** * Properties *)

(** ** JavaScript arrays *)

Lemma arr_get_set_eq i v a : arr_get (arr_set i v a) i = v.
Proof.
  unfold arr_get, arr_set. case_decide as Hi.
  - by rewrite list_lookup_insert_eq.
  - rewrite lookup_app_r by lia.
    rewrite lookup_app_r by (rewrite length_replicate; lia).
    rewrite length_replicate.
    by replace (i - length a - (i - length a))%nat with 0%nat by lia.
Qed.

Lemma arr_get_set_ne i j v a : i ≠ j → arr_get (arr_set i v a) j = arr_get a j.
Proof.
  intros Hij. unfold arr_get, arr_set. case_decide as Hi.
  - by rewrite list_lookup_insert_ne.
  - destruct (decide (j < length a)%nat) as [Hj|Hj].
    + by rewrite lookup_app_l.
    + rewrite (lookup_ge_None_2 a j) by lia.
      rewrite lookup_app_r by lia.
      destruct (decide (j < i)%nat) as [Hji|Hji].
      * rewrite lookup_app_l by (rewrite length_replicate; lia).
        rewrite lookup_replicate_2 by lia. done.
      * rewrite lookup_ge_None_2; [done|].
        rewrite length_app, length_replicate. simpl. lia.
Qed.

Lemma length_arr_set_length n a : length (arr_set_length n a) = n.
Proof.
  unfold arr_set_length.
  rewrite length_app, length_take, length_replicate. lia.
Qed.

Lemma arr_get_set_length n j a :
  (j < n)%nat → arr_get (arr_set_length n a) j = arr_get a j.
Proof.
  intros Hj. unfold arr_get, arr_set_length.
  destruct (decide (j < length a)%nat) as [Hja|Hja].
  - rewrite lookup_app_l by (rewrite length_take; lia).
    by rewrite lookup_take_lt.
  - rewrite (lookup_ge_None_2 a j) by lia.
    rewrite lookup_app_r by (rewrite length_take; lia).
    rewrite lookup_replicate_2; [done|]. rewrite length_take. lia.
Qed.

(** ** The button loop *)

Section ButtonLoopFacts.

Variable isPointing : bool.
Variable now : Z.
Variable r : Ray.

Lemma buttonLoop_cons len i b bs pt :
  buttonLoop isPointing now r len i (b :: bs) pt =
  let '(acts, pt1) := buttonStep isPointing now r len i b pt in
  let '(acts', pt2) := buttonLoop isPointing now r len (S i) bs pt1 in
  (acts ++ acts', pt2).
Proof. reflexivity. Qed.

Lemma loopActions_ext i bs pt pt' :
  (∀ j, (i ≤ j < i + length bs)%nat → arr_get pt j = arr_get pt' j) →
  loopActions isPointing now r i bs pt = loopActions isPointing now r i bs pt'.
Proof.
  revert i. induction bs as [|b bs IH]; intros i H; simpl; [done|].
  rewrite (H i) by (simpl; lia). f_equal.
  apply IH. intros j Hj. apply H. simpl. lia.
Qed.

(** One iteration changes index [i] only, among the indices below [len]. *)
Lemma buttonStep_get len i b pt j :
  (j < len)%nat →
  arr_get (buttonStep isPointing now r len i b pt).2 j =
  if decide (j = i) then nextTime now (pressed b) (arr_get pt i)
  else arr_get pt j.
Proof.
  intros Hj. unfold buttonStep, nextTime. simpl.
  rewrite arr_get_set_length by done.
  destruct (negb (Bool.eqb (pressed b) (truthy (arr_get pt i)))) eqn:E.
  - case_decide as Hji.
    + subst j. apply arr_get_set_eq.
    + apply arr_get_set_ne. congruence.
  - case_decide as Hji; [by subst j|done].
Qed.

Lemma buttonStep_length len i b pt :
  length (buttonStep isPointing now r len i b pt).2 = len.
Proof. unfold buttonStep. simpl. apply length_arr_set_length. Qed.

Lemma buttonLoop_actions len i bs pt :
  (i + length bs ≤ len)%nat →
  (buttonLoop isPointing now r len i bs pt).1 = loopActions isPointing now r i bs pt.
Proof.
  revert i pt. induction bs as [|b bs IH]; intros i pt Hlen; [done|].
  simpl in Hlen. rewrite buttonLoop_cons. simpl loopActions.
  destruct (buttonStep isPointing now r len i b pt) as [acts pt1] eqn:Hstep.
  specialize (IH (S i) pt1 ltac:(lia)).
  destruct (buttonLoop isPointing now r len (S i) bs pt1) as [acts' pt2].
  simpl in IH. subst acts'. simpl fst.
  assert (Hpt1 : ∀ k, (k < len)%nat →
            arr_get pt1 k = if decide (k = i)
                            then nextTime now (pressed b) (arr_get pt i)
                            else arr_get pt k).
  { intros k Hk. change pt1 with (acts, pt1).2. rewrite <- Hstep.
    by apply buttonStep_get. }
  assert (acts = buttonActions isPointing now r i (pressed b) (arr_get pt i))
    as -> by (unfold buttonStep in Hstep; congruence).
  f_equal. apply loopActions_ext. intros j Hj.
  rewrite Hpt1 by lia. case_decide; [lia|done].
Qed.

Lemma buttonLoop_get len i bs pt j :
  (i + length bs ≤ len)%nat → (j < len)%nat →
  arr_get (buttonLoop isPointing now r len i bs pt).2 j =
  match bs !! (j - i)%nat with
  | Some b => if decide (i ≤ j)%nat
              then nextTime now (pressed b) (arr_get pt j)
              else arr_get pt j
  | None => arr_get pt j
  end.
Proof.
  revert i pt. induction bs as [|b bs IH]; intros i pt Hlen Hj; [done|].
  simpl in Hlen. rewrite buttonLoop_cons.
  destruct (buttonStep isPointing now r len i b pt) as [acts pt1] eqn:Hstep.
  specialize (IH (S i) pt1 ltac:(lia) Hj).
  destruct (buttonLoop isPointing now r len (S i) bs pt1) as [acts' pt2].
  simpl in IH. simpl snd. rewrite IH.
  assert (Hpt1 : ∀ k, (k < len)%nat →
            arr_get pt1 k = if decide (k = i)
                            then nextTime now (pressed b) (arr_get pt i)
                            else arr_get pt k).
  { intros k Hk. change pt1 with (acts, pt1).2. rewrite <- Hstep.
    by apply buttonStep_get. }
  rewrite (Hpt1 j Hj).
  destruct (decide (j = i)) as [->|Hne].
  - replace (i - S i)%nat with 0%nat by lia.
    replace (i - i)%nat with 0%nat by lia. simpl.
    rewrite decide_True by lia.
    destruct bs as [|b' bs']; simpl; [done|].
    rewrite decide_False by lia. done.
  - destruct (decide (i ≤ j)%nat) as [Hle|Hgt].
    + replace (j - i)%nat with (S (j - S i)) by lia. simpl.
      destruct (bs !! (j - S i)%nat); [|done].
      rewrite decide_True by lia. done.
    + replace (j - i)%nat with 0%nat by lia.
      replace (j - S i)%nat with 0%nat by lia. simpl.
      destruct bs as [|b' bs']; simpl; [done|].
      rewrite decide_False by lia. done.
Qed.

Lemma buttonLoop_length len i b bs pt :
  length (buttonLoop isPointing now r len i (b :: bs) pt).2 = len.
Proof.
  revert i b pt. induction bs as [|b' bs IH]; intros i b pt.
  - simpl. apply length_arr_set_length.
  - rewrite buttonLoop_cons.
    destruct (buttonStep isPointing now r len i b pt) as [acts pt1].
    specialize (IH (S i) b' pt1).
    destruct (buttonLoop isPointing now r len (S i) (b' :: bs) pt1). done.
Qed.

(** One poll of the buttons, index by index. *)
Lemma trackButtons_actions bs pt :
  (trackButtons isPointing now r bs pt).1 = loopActions isPointing now r 0 bs pt.
Proof. unfold trackButtons. apply buttonLoop_actions. lia. Qed.

Lemma trackButtons_get bs pt j b :
  bs !! j = Some b →
  arr_get (trackButtons isPointing now r bs pt).2 j
  = nextTime now (pressed b) (arr_get pt j).
Proof.
  intros Hb. unfold trackButtons.
  rewrite buttonLoop_get; [|lia|by eapply lookup_lt_Some].
  replace (j - 0)%nat with j by lia. rewrite Hb.
  rewrite decide_True by lia. done.
Qed.

Lemma trackButtons_length bs pt :
  bs ≠ [] → length (trackButtons isPointing now r bs pt).2 = length bs.
Proof.
  destruct bs as [|b bs]; [done|]. intros _. unfold trackButtons.
  apply buttonLoop_length.
Qed.

Lemma trackButtons_nil pt : trackButtons isPointing now r [] pt = ([], pt).
Proof. reflexivity. Qed.

End ButtonLoopFacts.

(** ** One poll seen through one button *)

Lemma actionsOf_app es1 es2 :
  actionsOf (es1 ++ es2) = actionsOf es1 ++ actionsOf es2.
Proof. unfold actionsOf. apply omap_app. Qed.

Lemma actionsOf_actions (acts : list Action) :
  actionsOf (RayPointerAction <$> acts) = acts.
Proof.
  induction acts as [|a acts IH]; [done|].
  unfold actionsOf in *. cbn. f_equal. exact IH.
Qed.

Lemma filter_all {A} (P : A → Prop) `{∀ x, Decision (P x)} (l : list A) :
  Forall P l → filter P l = l.
Proof.
  induction 1 as [|x l Hx _ IH]; [done|].
  rewrite filter_cons_True by done. by rewrite IH.
Qed.

Lemma filter_none {A} (P : A → Prop) `{∀ x, Decision (P x)} (l : list A) :
  Forall (λ x, ¬ P x) l → filter P l = [].
Proof.
  induction 1 as [|x l Hx _ IH]; [done|].
  by rewrite filter_cons_False.
Qed.

Lemma buttonActions_button p now r j pr cur a :
  a ∈ buttonActions p now r j pr cur →
  button a = Some (Z.of_nat j) ∧ type a ≠ wheel.
Proof.
  unfold buttonActions. intros Ha.
  repeat match type of Ha with
         | context [if ?c then _ else _] => destruct c
         end;
    repeat match goal with
           | H : _ ∈ _ :: _ |- _ => apply elem_of_cons in H as [->|H]
           | H : _ ∈ [] |- _ => by apply elem_of_nil in H
           end; simpl; split; done.
Qed.

Lemma buttonActions_filter p now r i j pr cur :
  filter (λ a, button a = Some (Z.of_nat i)) (buttonActions p now r j pr cur)
  = if decide (j = i) then buttonActions p now r j pr cur else [].
Proof.
  case_decide as Hji.
  - subst j. apply filter_all, Forall_forall. intros a Ha.
    by apply buttonActions_button in Ha as [? _].
  - apply filter_none, Forall_forall. intros a Ha Hb.
    apply buttonActions_button in Ha as [Hbtn _].
    rewrite Hbtn in Hb. injection Hb as Hb. lia.
Qed.

Lemma loopActions_filter p now r i k bs pt :
  filter (λ a, button a = Some (Z.of_nat i)) (loopActions p now r k bs pt)
  = match bs !! (i - k)%nat with
    | Some b => if decide (k ≤ i)%nat
                then buttonActions p now r i (pressed b) (arr_get pt i)
                else []
    | None => []
    end.
Proof.
  revert k. induction bs as [|b bs IH]; intros k; simpl; [done|].
  rewrite filter_app, buttonActions_filter, IH.
  destruct (decide (k = i)) as [->|Hne].
  - replace (i - i)%nat with 0%nat by lia.
    replace (i - S i)%nat with 0%nat by lia. simpl.
    rewrite decide_True by lia.
    destruct bs as [|b' bs']; simpl; [by rewrite app_nil_r|].
    rewrite decide_False by lia. by rewrite app_nil_r.
  - simpl. destruct (decide (k ≤ i)%nat) as [Hle|Hgt].
    + replace (i - k)%nat with (S (i - S k)) by lia. simpl.
      destruct (bs !! (i - S k)%nat); [|done].
      rewrite decide_True by lia. done.
    + replace (i - k)%nat with 0%nat by lia.
      replace (i - S k)%nat with 0%nat by lia. simpl.
      destruct bs as [|b' bs']; simpl; [done|].
      rewrite decide_False by lia. done.
Qed.

Lemma wheelActions_button hypot p r axes i a :
  a ∈ wheelActions hypot p r axes i → type a = wheel ∧ button a = None.
Proof.
  unfold wheelActions. intros Ha.
  repeat match type of Ha with
         | context [if ?c then _ else _] => destruct c
         end;
    repeat match goal with
           | H : _ ∈ _ :: _ |- _ => apply elem_of_cons in H as [->|H]
           | H : _ ∈ [] |- _ => by apply elem_of_nil in H
           end; done.
Qed.

Lemma axisLoop_button hypot p r fuel axes i a :
  a ∈ axisLoop hypot p r fuel axes i → type a = wheel ∧ button a = None.
Proof.
  revert i. induction fuel as [|fuel IH]; intros i; simpl.
  - by intros ?%elem_of_nil.
  - case_decide; [|by intros ?%elem_of_nil].
    intros [Ha|Ha]%elem_of_app; [by eapply wheelActions_button|by eapply IH].
Qed.

(** The loop visits the even indices below the length, in order. *)
Lemma axisLoop_pairs hypot p r fuel axes k :
  (length axes ≤ 2 * k + 2 * fuel)%nat →
  axisLoop hypot p r fuel axes (2 * k) =
  flat_map (λ j, wheelActions hypot p r axes (2 * j))
           (seq k (Nat.div2 (S (length axes)) - k)).
Proof.
  pose proof (Nat.div2_odd (S (length axes))) as Hd.
  assert (Nat.b2n (Nat.odd (S (length axes))) ≤ 1)%nat as Hb
    by (destruct (Nat.odd _); simpl; lia).
  revert Hd Hb. generalize (Nat.b2n (Nat.odd (S (length axes)))).
  generalize (Nat.div2 (S (length axes))). intros n c Hd Hb.
  revert k. induction fuel as [|fuel IH]; intros k Hlen; cbn [axisLoop].
  - replace (n - k)%nat with 0%nat by lia. done.
  - case_decide as Hk.
    + replace (n - k)%nat with (S (n - S k)) by lia.
      cbn [seq flat_map]. f_equal.
      replace (2 * k + 2)%nat with (2 * S k)%nat by lia.
      apply IH. lia.
    + replace (n - k)%nat with 0%nat by lia. done.
Qed.

Lemma trackGamepadState_run hypot now g s :
  _trackGamepadState hypot now g s =
  (set__buttonPresses
     (Some (trackButtons (isPointing s) now (_ray s) (buttons g)
                         (default [] (_buttonPresses s))).2) s,
   (RayPointerAction <$>
      (trackButtons (isPointing s) now (_ray s) (buttons g)
                    (default [] (_buttonPresses s))).1)
   ++ (RayPointerAction <$> trackAxes hypot (isPointing s) (_ray s) (axes g)),
   Some tt).
Proof.
  unfold _trackGamepadState, bind, get. simpl.
  destruct (trackButtons (isPointing s) now (_ray s) (buttons g)
                         (default [] (_buttonPresses s))) as [acts pt].
  reflexivity.
Qed.

Lemma poll_buttonActionsOf hypot now g s i pr :
  pressedAt i g = Some pr →
  buttonActionsOf i (effects (_trackGamepadState hypot now g s))
  = buttonActions (isPointing s) now (_ray s) i pr (storedTime i s).
Proof.
  unfold pressedAt, buttonActionsOf, storedTime. intros Hp.
  destruct (buttons g !! i) as [b|] eqn:Hb; [|done]. injection Hp as <-.
  rewrite trackGamepadState_run. unfold effects. simpl.
  rewrite actionsOf_app, !actionsOf_actions, filter_app.
  rewrite trackButtons_actions, loopActions_filter.
  replace (i - 0)%nat with i by lia. rewrite Hb.
  rewrite decide_True by lia.
  rewrite (filter_none _ (trackAxes _ _ _ _)); [by rewrite app_nil_r|].
  apply Forall_forall. intros a Ha Hbtn.
  apply axisLoop_button in Ha as [_ Hnone]. congruence.
Qed.

Lemma poll_storedTime hypot now g s i pr :
  pressedAt i g = Some pr →
  storedTime i (final (_trackGamepadState hypot now g s))
  = nextTime now pr (storedTime i s).
Proof.
  unfold pressedAt, storedTime. intros Hp.
  destruct (buttons g !! i) as [b|] eqn:Hb; [|done]. injection Hp as <-.
  rewrite trackGamepadState_run. unfold final. simpl.
  by apply trackButtons_get.
Qed.

Lemma poll_length hypot now g s :
  buttons g ≠ [] →
  length (default [] (_buttonPresses (final (_trackGamepadState hypot now g s))))
  = length (buttons g).
Proof.
  intros Hne. rewrite trackGamepadState_run. unfold final. simpl.
  by apply trackButtons_length.
Qed.

(** ** Polls under a changing [isPointing] *)

Lemma storedTime_setPointing i p s : storedTime i (setPointing p s) = storedTime i s.
Proof. reflexivity. Qed.

Lemma pollWith_buttonActionsOf hypot p now g s i pr :
  pressedAt i g = Some pr →
  buttonActionsOf i (effects (pollWith hypot p now g s))
  = buttonActions p now (_ray s) i pr (storedTime i s).
Proof. intros Hp. unfold pollWith. by rewrite (poll_buttonActionsOf _ _ _ _ _ pr). Qed.

Lemma pollWith_storedTime hypot p now g s i pr :
  pressedAt i g = Some pr →
  storedTime i (final (pollWith hypot p now g s))
  = nextTime now pr (storedTime i s).
Proof. intros Hp. unfold pollWith. by rewrite (poll_storedTime _ _ _ _ _ pr). Qed.

Lemma buttonActionsOf_app i es1 es2 :
  buttonActionsOf i (es1 ++ es2) = buttonActionsOf i es1 ++ buttonActionsOf i es2.
Proof. unfold buttonActionsOf. by rewrite actionsOf_app, filter_app. Qed.

(** While a button stays pressed, its timestamp stays and it emits nothing. *)
Lemma pollAll_held hypot i t0 holds s :
  t0 ≠ 0 →
  Forall (λ h : bool * Z * Gamepad, pressedAt i h.2 = Some true) holds →
  storedTime i s = PTtime t0 →
  buttonActionsOf i (pollAll hypot holds s).2 = [] ∧
  storedTime i (pollAll hypot holds s).1 = PTtime t0.
Proof.
  intros Ht0 Hall. revert s.
  induction Hall as [|[[p now] g] holds Hp _ IH]; intros s Hs; [done|].
  simpl in Hp. cbn [pollAll].
  assert (Hk : storedTime i (final (pollWith hypot p now g s)) = PTtime t0).
  { rewrite (pollWith_storedTime _ _ _ _ _ _ true) by done.
    rewrite Hs. unfold nextTime. simpl.
    destruct (t0 =? 0) eqn:E; [lia|done]. }
  destruct (IH _ Hk) as [IHa IHs].
  destruct (pollAll hypot holds (final (pollWith hypot p now g s))) as [s' es].
  simpl in *. split; [|done].
  rewrite buttonActionsOf_app, IHa.
  rewrite (pollWith_buttonActionsOf _ _ _ _ _ _ true) by done.
  rewrite Hs. unfold buttonActions. simpl.
  destruct (t0 =? 0) eqn:E; [lia|done].
Qed.

(** ** The claims on the button loop *)

(** C1 (as amended).  A press of button [i] observed by a poll at [t0], any
    number of polls that find the button still pressed, then the release
    observed at [t1]: the press stores [t0]; the polls in between emit
    nothing for the button, so no click, and keep [t0]; the release poll,
    when [isPointing] holds at that poll, emits mouseup followed by click
    exactly if [t1 - t0 <= 300] and mouseup alone otherwise, and emits
    nothing for the button when [isPointing] does not hold; either way it
    clears the stored timestamp to [null]. *)
Theorem C1_click_within_window hypot i s0 p0 t0 g0 holds p1 t1 g1 :
  truthy (storedTime i s0) = false →
  pressedAt i g0 = Some true →
  t0 ≠ 0 →
  Forall (λ h : bool * Z * Gamepad, pressedAt i h.2 = Some true) holds →
  pressedAt i g1 = Some false →
  let s1 := final (pollWith hypot p0 t0 g0 s0) in
  let held := pollAll hypot holds s1 in
  let rel := pollWith hypot p1 t1 g1 held.1 in
  storedTime i s1 = PTtime t0 ∧
  buttonActionsOf i held.2 = [] ∧
  storedTime i held.1 = PTtime t0 ∧
  type <$> buttonActionsOf i (effects rel) =
    (if p1 then mouseup :: (if t1 - t0 <=? 300 then [click] else []) else []) ∧
  storedTime i (final rel) = PTnull.
Proof.
  intros Hfalsy Hpress Ht0 Hholds Hrel s1 held rel.
  assert (Hs1 : storedTime i s1 = PTtime t0).
  { subst s1. rewrite (pollWith_storedTime _ _ _ _ _ _ true) by done.
    unfold nextTime. by rewrite Hfalsy. }
  destruct (pollAll_held hypot i t0 holds s1 Ht0 Hholds Hs1) as [Hnone Hkept].
  fold held in Hnone, Hkept.
  assert (Htruthy : truthy (PTtime t0) = true)
    by (simpl; destruct (t0 =? 0) eqn:E; [lia|done]).
  repeat split; try done.
  - subst rel. rewrite (pollWith_buttonActionsOf _ _ _ _ _ _ false) by done.
    rewrite Hkept. unfold buttonActions. rewrite Htruthy.
    unfold CLICK_MAX_DUR. simpl.
    destruct p1; [|done]. by destruct (t1 - t0 <=? 300).
  - subst rel. rewrite (pollWith_storedTime _ _ _ _ _ _ false) by done.
    rewrite Hkept. unfold nextTime. by rewrite Htruthy.
Qed.

(** C1, satisfiable: after construction, button 0 is pressed at 1000, held
    for two polls and released at 1250 with pointing enabled. *)
Lemma C1_click_within_window_witness :
  let s1 := final (pollWith hypot_sqrt true 1000 (sampleGamepad [true] [])
                            sampleFacade) in
  let held := pollAll hypot_sqrt
                [(true, 1016, sampleGamepad [true] []);
                 (false, 1032, sampleGamepad [true; false] [])] s1 in
  let rel := pollWith hypot_sqrt true 1250 (sampleGamepad [false] []) held.1 in
  storedTime 0 s1 = PTtime 1000 ∧
  buttonActionsOf 0 held.2 = [] ∧
  storedTime 0 held.1 = PTtime 1000 ∧
  type <$> buttonActionsOf 0 (effects rel) = [mouseup; click] ∧
  storedTime 0 (final rel) = PTnull.
Proof.
  apply (C1_click_within_window hypot_sqrt 0 sampleFacade true 1000
           (sampleGamepad [true] [])
           [(true, 1016, sampleGamepad [true] []);
            (false, 1032, sampleGamepad [true; false] [])]
           true 1250 (sampleGamepad [false] [])).
  - reflexivity.
  - reflexivity.
  - lia.
  - repeat constructor.
  - reflexivity.
Defined.

(** C1 as stated fails: a press at 1000 and its release at 1100, within the
    window, with [isPointing] false at the release poll: the poll emits no
    click (and no mouseup). *)
Lemma C1_counterexample_release_not_pointing :
  let s1 := final (pollWith hypot_sqrt true 1000 (sampleGamepad [true] [])
                            sampleFacade) in
  let rel := pollWith hypot_sqrt false 1100 (sampleGamepad [false] []) s1 in
  storedTime 0 sampleFacade = PTundefined ∧
  storedTime 0 s1 = PTtime 1000 ∧
  (1100 - 1000 <=? 300) = true ∧
  actionsOf (effects rel) = [] ∧
  storedTime 0 (final rel) = PTnull.
Proof. vm_compute. repeat split. Qed.

(** X21.  Whatever [isPointing] is, a poll that finds button [i] pressed
    while its stored time is falsy stores the poll's clock, and a poll that
    finds it released while the stored time is truthy stores [null].  So a
    press observed at a nonzero clock with [isPointing] false and released
    within 300ms with [isPointing] true yields mouseup and click for the
    button, although neither the press poll nor the polls in between
    emitted anything for it: no mousedown. *)
Theorem X21_timestamps_ignore_pointing hypot i :
  (∀ s p now g,
      pressedAt i g = Some true → truthy (storedTime i s) = false →
      storedTime i (final (pollWith hypot p now g s)) = PTtime now) ∧
  (∀ s p now g,
      pressedAt i g = Some false → truthy (storedTime i s) = true →
      storedTime i (final (pollWith hypot p now g s)) = PTnull) ∧
  (∀ s0 t0 g0 holds t1 g1,
      truthy (storedTime i s0) = false →
      pressedAt i g0 = Some true →
      t0 ≠ 0 →
      Forall (λ h : bool * Z * Gamepad, pressedAt i h.2 = Some true) holds →
      pressedAt i g1 = Some false →
      t1 - t0 ≤ 300 →
      let press := pollWith hypot false t0 g0 s0 in
      let held := pollAll hypot holds (final press) in
      let rel := pollWith hypot true t1 g1 held.1 in
      buttonActionsOf i (effects press) = [] ∧
      buttonActionsOf i held.2 = [] ∧
      type <$> buttonActionsOf i (effects rel) = [mouseup; click]).
Proof.
  split; [|split].
  - intros s p now g Hp Hfalsy.
    rewrite (pollWith_storedTime _ _ _ _ _ _ true) by done.
    unfold nextTime. by rewrite Hfalsy.
  - intros s p now g Hp Htruthy.
    rewrite (pollWith_storedTime _ _ _ _ _ _ false) by done.
    unfold nextTime. by rewrite Htruthy.
  - intros s0 t0 g0 holds t1 g1 Hfalsy Hpress Ht0 Hholds Hrel Hwin press held rel.
    assert (Hs1 : storedTime i (final press) = PTtime t0).
    { subst press. rewrite (pollWith_storedTime _ _ _ _ _ _ true) by done.
      unfold nextTime. by rewrite Hfalsy. }
    destruct (pollAll_held hypot i t0 holds _ Ht0 Hholds Hs1) as [Hnone Hkept].
    fold held in Hnone, Hkept.
    split; [|split; [done|]].
    + subst press. rewrite (pollWith_buttonActionsOf _ _ _ _ _ _ true) by done.
      unfold buttonActions. by rewrite Hfalsy.
    + subst rel. rewrite (pollWith_buttonActionsOf _ _ _ _ _ _ false) by done.
      rewrite Hkept. unfold buttonActions, CLICK_MAX_DUR. simpl.
      destruct (t0 =? 0) eqn:E; [lia|]. simpl.
      destruct (t1 - t0 <=? 300) eqn:E'; [done|lia].
Qed.

(** X21, satisfiable: button 1 is pressed at 5000 with pointing off, held
    for one poll and released at 5300 with pointing on. *)
Lemma X21_timestamps_ignore_pointing_witness :
  let press := pollWith hypot_sqrt false 5000
                 (sampleGamepad [false; true] []) sampleFacade in
  let held := pollAll hypot_sqrt
                [(false, 5100, sampleGamepad [false; true] [])] (final press) in
  let rel := pollWith hypot_sqrt true 5300
               (sampleGamepad [false; false] []) held.1 in
  storedTime 1 (final press) = PTtime 5000 ∧
  storedTime 1 (final rel) = PTnull ∧
  buttonActionsOf 1 (effects press) = [] ∧
  buttonActionsOf 1 held.2 = [] ∧
  type <$> buttonActionsOf 1 (effects rel) = [mouseup; click].
Proof.
  pose proof (X21_timestamps_ignore_pointing hypot_sqrt 1) as (Hrec & Hclr & Hrun).
  split; [|split].
  - apply Hrec; reflexivity.
  - apply Hclr; reflexivity.
  - apply (Hrun sampleFacade 5000 (sampleGamepad [false; true] [])
             [(false, 5100, sampleGamepad [false; true] [])]
             5300 (sampleGamepad [false; false] [])).
    + reflexivity.
    + reflexivity.
    + lia.
    + repeat constructor.
    + reflexivity.
    + lia.
Defined.

(** C10 fails on the code when the press is observed at [Date.now()] = 0.
    Button 0 is pressed at clock 0 with [isPointing] false and released at
    clock 100, within the window, with [isPointing] true.  The press poll
    stores the number 0, which is falsy, so the press is not on record: the
    release poll finds no change, emits neither mouseup nor click, and
    does not clear the stored time. *)
Theorem C10_press_at_clock_zero_is_lost :
  let press := pollWith hypot_sqrt false 0 (sampleGamepad [true] [])
                        sampleFacade in
  let rel := pollWith hypot_sqrt true 100 (sampleGamepad [false] [])
                      (final press) in
  storedTime 0 sampleFacade = PTundefined ∧
  storedTime 0 (final press) = PTtime 0 ∧
  truthy (storedTime 0 (final press)) = false ∧
  (100 - 0 <=? CLICK_MAX_DUR) = true ∧
  actionsOf (effects press) = [] ∧
  actionsOf (effects rel) = [] ∧
  storedTime 0 (final rel) = PTtime 0.
Proof. vm_compute. repeat split. Qed.

(** C2 (as amended).  Two consecutive polls of the gamepad, the first at a
    nonzero clock, with button [i] present in both; any handlers may run in
    between as long as they leave [_buttonPresses] alone.  Among the actions
    the second poll emits for button [i] there is exactly one mousedown if
    the button went from released to pressed and [isPointing] holds, and
    none otherwise; exactly one mouseup if it went from pressed to released
    and [isPointing] holds, and none otherwise; and no action at all for the
    button if its pressed state did not change, or if [isPointing] does not
    hold. *)
Theorem C2_one_action_per_transition hypot s0 p0 t0 g0 s1 p1 t1 g1 i b0 b1 :
  t0 ≠ 0 →
  pressedAt i g0 = Some b0 →
  pressedAt i g1 = Some b1 →
  _buttonPresses s1 = _buttonPresses (final (pollWith hypot p0 t0 g0 s0)) →
  let acts := buttonActionsOf i (effects (pollWith hypot p1 t1 g1 s1)) in
  length (filter (λ a, type a = mousedown) acts)
    = (if p1 && negb b0 && b1 then 1 else 0)%nat ∧
  length (filter (λ a, type a = mouseup) acts)
    = (if p1 && b0 && negb b1 then 1 else 0)%nat ∧
  (b0 = b1 → acts = []) ∧
  (p1 = false → acts = []).
Proof.
  intros Ht0 Hb0 Hb1 Hsame acts.
  assert (Hcur : truthy (storedTime i s1) = b0).
  { unfold storedTime. rewrite Hsame. fold (storedTime i (final (pollWith hypot p0 t0 g0 s0))).
    rewrite (pollWith_storedTime _ _ _ _ _ _ b0) by done.
    unfold nextTime.
    destruct (Bool.eqb b0 (truthy (storedTime i s0))) eqn:E; simpl.
    - symmetry. by apply Bool.eqb_prop.
    - destruct b0; simpl; [|done]. destruct (t0 =? 0) eqn:E0; [lia|done]. }
  subst acts. rewrite (pollWith_buttonActionsOf _ _ _ _ _ _ b1) by done.
  unfold buttonActions. rewrite Hcur.
  destruct p1, b0, b1; simpl; repeat split; try done;
    repeat match goal with
           | |- context [if ?c then _ else _] => destruct c
           end; done.
Qed.

(** C2, satisfiable: button 0 is released and then pressed, with pointing
    enabled at the second poll. *)
Lemma C2_one_action_per_transition_witness :
  let s1 := final (pollWith hypot_sqrt true 1000
                     (sampleGamepad [false] []) sampleFacade) in
  let acts := buttonActionsOf 0
                (effects (pollWith hypot_sqrt true 1016
                            (sampleGamepad [true] []) s1)) in
  length (filter (λ a, type a = mousedown) acts) = 1%nat ∧
  length (filter (λ a, type a = mouseup) acts) = 0%nat ∧
  (false = true → acts = []) ∧
  (true = false → acts = []).
Proof.
  apply (C2_one_action_per_transition hypot_sqrt sampleFacade true 1000
           (sampleGamepad [false] []) _ true 1016 (sampleGamepad [true] [])
           0%nat false true).
  - lia.
  - reflexivity.
  - reflexivity.
  - reflexivity.
Defined.

(** C2 as stated fails: button 0 goes from released to pressed between two
    consecutive polls and, [isPointing] being false, the second poll emits
    no mousedown. *)
Lemma C2_counterexample_press_not_pointing :
  let s1 := final (pollWith hypot_sqrt false 1000
                     (sampleGamepad [false] []) sampleFacade) in
  pressedAt 0 (sampleGamepad [false] []) = Some false ∧
  pressedAt 0 (sampleGamepad [true] []) = Some true ∧
  actionsOf (effects (pollWith hypot_sqrt false 1016
                        (sampleGamepad [true] []) s1)) = [].
Proof. vm_compute. repeat split. Qed.

(** C6, on the positive side: a poll of a gamepad with at least one button
    leaves [_buttonPresses] as long as the button array, whatever its
    length was. *)
Lemma poll_length_nonempty hypot p now g s :
  buttons g ≠ [] →
  length (default [] (_buttonPresses (final (pollWith hypot p now g s))))
  = length (buttons g).
Proof. intros Hne. unfold pollWith. by apply poll_length. Qed.

(** A poll of a gamepad without buttons never reaches the length assignment:
    [_buttonPresses] keeps its content. *)
Lemma poll_empty_keeps hypot p now g s :
  buttons g = [] →
  _buttonPresses (final (pollWith hypot p now g s))
  = Some (default [] (_buttonPresses s)).
Proof.
  intros Hnil. unfold pollWith. rewrite trackGamepadState_run.
  unfold final. simpl. by rewrite Hnil.
Qed.

(** C6 fails on the code: after a poll with two buttons, a poll of an empty
    button array leaves the stored sequence at length 2, not 0. *)
Theorem C6_empty_poll_keeps_stale_length hypot :
  let s1 := final (pollWith hypot true 1000
                     (sampleGamepad [true; false] []) sampleFacade) in
  let g2 := sampleGamepad [] [] in
  let s2 := final (pollWith hypot true 1016 g2 s1) in
  _buttonPresses s1 = Some [PTtime 1000; PTundefined] ∧
  length (buttons g2) = 0%nat ∧
  _buttonPresses s2 = Some [PTtime 1000; PTundefined] ∧
  length (default [] (_buttonPresses s2)) = 2%nat.
Proof. repeat split. Qed.

(** ** The methods, run *)

(** The session listeners [afterUpdate] leaves, given the input source. *)
Lemma afterUpdate_run s src :
  xrInputSource s = Some src →
  ∃ s',
    afterUpdate s = (s', [SuperAfterUpdate], Some tt) ∧
    self s' = self s ∧
    xrInputSource s' = xrInputSource s ∧
    xrSession s' = xrSession s ∧
    isPointing s' = isPointing s ∧
    targetRayPose s' = targetRayPose s ∧
    gripPose s' = gripPose s ∧
    rayIntersection s' = rayIntersection s ∧
    _ray s' = _ray s ∧
    _buttonPresses s' = _buttonPresses s ∧
    sceneListeners s' = sceneListeners s ∧
    _lastXrSession s' = xrSession s ∧
    sessionListeners s' =
      if decide (xrSession s ≠ _lastXrSession s) then
        let reg := toggleEvents (_lastXrSession s) false XRSESSION_EVENTS
                                (sessionListeners s) in
        if xrStandard src then reg
        else toggleEvents (xrSession s) true XRSESSION_EVENTS reg
      else sessionListeners s.
Proof.
  intros Hsrc. unfold afterUpdate, _isXrStandardGamepad, bind, get, modify,
    emit, deref, ret. simpl. rewrite Hsrc.
  destruct (decide (xrSession s ≠ _lastXrSession s)) as [Hne|Heq]; simpl.
  - rewrite Hsrc. simpl. destruct (xrStandard src); simpl;
      eexists; (split; [reflexivity|]); simpl; repeat split; done.
  - eexists; (split; [reflexivity|]); simpl; repeat split; try done.
    by apply dec_stable in Heq.
Qed.

(** *** What a method leaves alone *)

Lemma keeps_ret {A} (I : Facade → Prop) (x : A) : keeps I (ret x).
Proof. by intros s. Qed.

Lemma keeps_get (I : Facade → Prop) : keeps I get.
Proof. by intros s. Qed.

Lemma keeps_emit (I : Facade → Prop) es : keeps I (emit es).
Proof. by intros s. Qed.

Lemma keeps_throw {A} (I : Facade → Prop) : keeps I (@throw A).
Proof. by intros s. Qed.

Lemma keeps_deref {A} (I : Facade → Prop) (x : option A) : keeps I (deref x).
Proof. destruct x; by intros s. Qed.

Lemma keeps_modify (I : Facade → Prop) (f : Facade → Facade) :
  (∀ s, I s → I (f s)) → keeps I (modify f).
Proof. intros Hf s Hs. by apply Hf. Qed.

Lemma keeps_bind {A B} (I : Facade → Prop) (m : M A) (f : A → M B) :
  keeps I m → (∀ a, keeps I (f a)) → keeps I (bind m f).
Proof.
  intros Hm Hf s Hs. unfold bind.
  specialize (Hm s Hs). destruct (m s) as [[s1 e1] [a|]]; [|done].
  specialize (Hf a s1 Hm). by destruct (f a s1) as [[s2 e2] b].
Qed.

(** Breaks a method into its binds and branches; what is left are the
    field writes. *)
Ltac keeps_step :=
  lazymatch goal with
  | |- keeps _ (bind _ _) => apply keeps_bind; [|intros ?]
  | |- keeps _ (ret _) => apply keeps_ret
  | |- keeps _ get => apply keeps_get
  | |- keeps _ (emit _) => apply keeps_emit
  | |- keeps _ throw => apply keeps_throw
  | |- keeps _ (deref _) => apply keeps_deref
  | |- keeps _ (modify _) => apply keeps_modify; intros ? ?
  | |- keeps _ (match ?x with _ => _ end) => destruct x
  | |- keeps _ (let _ := _ in _) => cbv zeta
  end.

(** *** Running binds: the three components of an outcome *)

Lemma final_bind {A B} (m : M A) (f : A → M B) s :
  final (bind m f s) =
  match returned (m s) with
  | Some a => final (f a (final (m s)))
  | None => final (m s)
  end.
Proof.
  unfold bind, final, returned. destruct (m s) as [[s1 e1] [a|]]; [|done].
  simpl. by destruct (f a s1) as [[s2 e2] b].
Qed.

Lemma returned_bind {A B} (m : M A) (f : A → M B) s :
  returned (bind m f s) =
  match returned (m s) with
  | Some a => returned (f a (final (m s)))
  | None => None
  end.
Proof.
  unfold bind, final, returned. destruct (m s) as [[s1 e1] [a|]]; [|done].
  simpl. by destruct (f a s1) as [[s2 e2] b].
Qed.

Lemma effects_bind {A B} (m : M A) (f : A → M B) s :
  effects (bind m f s) =
  effects (m s) ++
  match returned (m s) with
  | Some a => effects (f a (final (m s)))
  | None => []
  end.
Proof.
  unfold bind, final, returned, effects.
  destruct (m s) as [[s1 e1] [a|]]; [|by rewrite app_nil_r].
  simpl. by destruct (f a s1) as [[s2 e2] b].
Qed.

Lemma returned_deref {A} (x : option A) s : returned (deref x s) = x.
Proof. by destruct x. Qed.

Lemma final_deref {A} (x : option A) s : final (deref x s) = s.
Proof. by destruct x. Qed.

Lemma effects_deref {A} (x : option A) s : effects (deref x s) = [].
Proof. by destruct x. Qed.

(** *** Methods that return *)

Lemma wp_ret {A} (x : A) (Q : A → Facade → Prop) s : Q x s → wp (ret x) Q s.
Proof. intros HQ. by exists x. Qed.

Lemma wp_get (Q : Facade → Facade → Prop) s : Q s s → wp get Q s.
Proof. intros HQ. by exists s. Qed.

Lemma wp_modify f (Q : unit → Facade → Prop) s : Q tt (f s) → wp (modify f) Q s.
Proof. intros HQ. by exists tt. Qed.

Lemma wp_emit es (Q : unit → Facade → Prop) s : Q tt s → wp (emit es) Q s.
Proof. intros HQ. by exists tt. Qed.

Lemma wp_deref {A} (x : option A) v (Q : A → Facade → Prop) s :
  x = Some v → Q v s → wp (deref x) Q s.
Proof. intros -> HQ. by exists v. Qed.

Lemma wp_bind {A B} (m : M A) (f : A → M B) (Q : B → Facade → Prop) s :
  wp m (λ a s1, wp (f a) Q s1) s → wp (bind m f) Q s.
Proof.
  intros (a & Ha & b & Hb & HQ). exists b.
  rewrite returned_bind, final_bind, Ha. done.
Qed.

Lemma wp_mono {A} (m : M A) (Q Q' : A → Facade → Prop) s :
  (∀ a s', Q a s' → Q' a s') → wp m Q s → wp m Q' s.
Proof. intros HQ (a & Ha & H). exists a. auto. Qed.

Section MethodFacts.

Variables BUTTON_TRIGGER BUTTON_SQUEEZE : Z.
Variable hypot : float → float → float.
Variable applyQuaternion : Vector3 → Quaternion → Vector3.

Lemma trackGamepadState_keeps (I : Facade → Prop) now g :
  (∀ x s, I s → I (set__buttonPresses x s)) →
  keeps I (_trackGamepadState hypot now g).
Proof. intros H s Hs. rewrite trackGamepadState_run. by apply H. Qed.

Lemma afterUpdate_keeps (I : Facade → Prop) :
  (∀ x s, I s → I (set__lastXrSession x s)) →
  (∀ x s, I s → I (set_sessionListeners x s)) →
  (∀ c t g ch s, I s → I (set_configs c t g ch s)) →
  keeps I afterUpdate.
Proof.
  intros H1 H2 H3. unfold afterUpdate, _isXrStandardGamepad.
  repeat keeps_step; auto.
Qed.

Lemma resolvePoses_keeps (I : Facade → Prop) env :
  (∀ x s, I s → I (set__ray x s)) →
  (∀ x y s, I s → I (set_poses x y s)) →
  keeps I (resolvePoses applyQuaternion env).
Proof.
  intros H1 H2. unfold resolvePoses.
  repeat keeps_step; auto.
Qed.

Lemma onXrFrame_keeps_with (I : Facade → Prop) env :
  (∀ x s, I s → I (set__ray x s)) →
  (∀ x y s, I s → I (set_poses x y s)) →
  (∀ x s, I s → I (set__buttonPresses x s)) →
  keeps I afterUpdate →
  keeps I (_onXrFrame hypot applyQuaternion env).
Proof.
  intros H1 H2 H3 H4. unfold _onXrFrame, _isXrStandardGamepad.
  repeat first
    [ apply resolvePoses_keeps
    | apply trackGamepadState_keeps
    | exact H4
    | keeps_step ]; auto.
Qed.

Lemma onXrFrame_keeps (I : Facade → Prop) env :
  (∀ x s, I s → I (set__ray x s)) →
  (∀ x y s, I s → I (set_poses x y s)) →
  (∀ x s, I s → I (set__buttonPresses x s)) →
  (∀ x s, I s → I (set__lastXrSession x s)) →
  (∀ x s, I s → I (set_sessionListeners x s)) →
  (∀ c t g ch s, I s → I (set_configs c t g ch s)) →
  keeps I (_onXrFrame hypot applyQuaternion env).
Proof.
  intros H1 H2 H3 H4 H5 H6.
  apply onXrFrame_keeps_with; auto using afterUpdate_keeps.
Qed.

Lemma wp_trackGamepadState now g (Q : unit → Facade → Prop) s :
  (∀ pt, Q tt (set__buttonPresses pt s)) →
  wp (_trackGamepadState hypot now g) Q s.
Proof. intros HQ. exists tt. rewrite trackGamepadState_run. split; [done|apply HQ]. Qed.

Lemma wp_isXrStandardGamepad src (Q : bool → Facade → Prop) s :
  xrInputSource s = Some src → Q (xrStandard src) s →
  wp _isXrStandardGamepad Q s.
Proof.
  intros Hsrc HQ. exists (xrStandard src).
  unfold _isXrStandardGamepad, bind, get, deref, ret, returned, final.
  simpl. rewrite Hsrc. done.
Qed.

Lemma wp_afterUpdate src (Q : unit → Facade → Prop) s :
  xrInputSource s = Some src →
  (∀ s', xrInputSource s' = xrInputSource s →
         targetRayPose s' = targetRayPose s →
         gripPose s' = gripPose s →
         rayIntersection s' = rayIntersection s →
         _buttonPresses s' = _buttonPresses s →
         Q tt s') →
  wp afterUpdate Q s.
Proof.
  intros Hsrc HQ.
  destruct (afterUpdate_run s src Hsrc)
    as (s' & Hrun & _ & H1 & _ & _ & H2 & H3 & H4 & _ & H5 & _).
  exists tt. rewrite Hrun. split; [done|]. by apply HQ.
Qed.

Lemma wp_resolvePoses env src (Q : unit → Facade → Prop) s :
  xrInputSource s = Some src →
  (∀ s', xrInputSource s' = xrInputSource s →
         _buttonPresses s' = _buttonPresses s →
         rayIntersection s' = rayIntersection s →
         targetRayPose s' =
           match offsetReferenceSpace env with
           | Some ref => getPose env (targetRaySpace src) ref
           | None => targetRayPose s
           end →
         gripPose s' =
           match offsetReferenceSpace env with
           | Some ref => gs ← gripSpace src; getPose env gs ref
           | None => gripPose s
           end →
         Q tt s') →
  wp (resolvePoses applyQuaternion env) Q s.
Proof.
  intros Hsrc HQ. unfold resolvePoses.
  apply wp_bind, wp_get.
  destruct (offsetReferenceSpace env) as [ref|]; [|by apply wp_ret, HQ].
  apply wp_bind, (wp_deref _ src); [done|].
  apply wp_bind.
  destruct (getPose env (targetRaySpace src) ref) as [p|] eqn:Hp;
    [destruct (isPointing s)|];
    repeat first [ apply wp_bind | apply wp_modify | apply wp_emit
                 | apply wp_ret ];
    apply HQ; try done; simpl; by destruct (gripSpace src).
Qed.

Lemma wp_onXrFrame env src (Q : unit → Facade → Prop) s :
  xrInputSource s = Some src →
  (∀ s', targetRayPose s' =
           match offsetReferenceSpace env with
           | Some ref => getPose env (targetRaySpace src) ref
           | None => targetRayPose s
           end →
         gripPose s' =
           match offsetReferenceSpace env with
           | Some ref => gs ← gripSpace src; getPose env gs ref
           | None => gripPose s
           end →
         Q tt s') →
  wp (_onXrFrame hypot applyQuaternion env) Q s.
Proof.
  intros Hsrc HQ. unfold _onXrFrame.
  apply wp_bind, wp_get.
  apply wp_bind, (wp_resolvePoses env src); [done|].
  intros s1 E1 E2 E3 E4 E5.
  apply wp_bind, (wp_isXrStandardGamepad src); [congruence|].
  apply wp_bind.
  destruct (xrStandard src) eqn:Hstd.
  - unfold xrStandard in Hstd. destruct (gamepad src) as [g|] eqn:Hg; [|done].
    apply wp_bind, (wp_deref _ src); [done|].
    apply wp_bind, (wp_deref _ g); [done|].
    apply wp_trackGamepadState. intros pt.
    apply (wp_afterUpdate src); [simpl; congruence|].
    intros s2 F1 F2 F3 F4 F5. apply HQ; simpl in *; congruence.
  - apply wp_ret. apply (wp_afterUpdate src); [congruence|].
    intros s2 F1 F2 F3 F4 F5. apply HQ; congruence.
Qed.

(** A frame without a reference space skips the pose update. *)
Lemma onXrFrame_keeps_noref (I : Facade → Prop) env :
  offsetReferenceSpace env = None →
  (∀ x s, I s → I (set__buttonPresses x s)) →
  (∀ x s, I s → I (set__lastXrSession x s)) →
  (∀ x s, I s → I (set_sessionListeners x s)) →
  (∀ c t g ch s, I s → I (set_configs c t g ch s)) →
  keeps I (_onXrFrame hypot applyQuaternion env).
Proof.
  intros Hnone H3 H4 H5 H6.
  unfold _onXrFrame, resolvePoses, _isXrStandardGamepad. rewrite Hnone.
  repeat first
    [ apply trackGamepadState_keeps
    | apply afterUpdate_keeps
    | keeps_step ]; auto.
Qed.

Lemma onSessionEvent_run e_type s :
  _onSessionEvent BUTTON_TRIGGER BUTTON_SQUEEZE e_type s =
  (s,
   [RayPointerAction
      {| ray := _ray s;
         type := if ends_with "start" e_type then mousedown
                 else if ends_with "end" e_type then mouseup
                 else click;
         button := Some (if starts_with "squeeze" e_type
                         then BUTTON_SQUEEZE else BUTTON_TRIGGER);
         deltaX := None; deltaY := None; deltaMode := None |}],
   Some tt).
Proof. reflexivity. Qed.

Lemma onSceneRayEvent_other e s :
  se_eventSource e ≠ Some (self s) →
  _onSceneRayEvent BUTTON_TRIGGER BUTTON_SQUEEZE e s = (s, [], Some tt).
Proof.
  intros Hne. unfold _onSceneRayEvent, bind, get. simpl.
  by rewrite decide_False.
Qed.

(** The part of [_onSceneRayEvent] that follows the assignment of
    [rayIntersection] writes no field but through [afterUpdate]. *)
Lemma onSceneRayEvent_keeps_with (I : Facade → Prop) e :
  (∀ x s, I s → I (set_rayIntersection x s)) →
  keeps I afterUpdate →
  keeps I (_onSceneRayEvent BUTTON_TRIGGER BUTTON_SQUEEZE e).
Proof.
  intros H1 H2. unfold _onSceneRayEvent.
  repeat first [ exact H2 | keeps_step ]; auto.
Qed.

Lemma onSceneRayEvent_keeps (I : Facade → Prop) e :
  (∀ x s, I s → I (set_rayIntersection x s)) →
  (∀ x s, I s → I (set__lastXrSession x s)) →
  (∀ x s, I s → I (set_sessionListeners x s)) →
  (∀ c t g ch s, I s → I (set_configs c t g ch s)) →
  keeps I (_onSceneRayEvent BUTTON_TRIGGER BUTTON_SQUEEZE e).
Proof.
  intros H1 H2 H3 H4.
  apply onSceneRayEvent_keeps_with; auto using afterUpdate_keeps.
Qed.

Lemma onSceneRayEvent_own_intersection e s :
  se_eventSource e = Some (self s) →
  rayIntersection (final (_onSceneRayEvent BUTTON_TRIGGER BUTTON_SQUEEZE e s))
  = se_intersection e.
Proof.
  intros Hown. unfold _onSceneRayEvent.
  rewrite final_bind. cbn [get returned final fst snd].
  rewrite decide_True by done.
  rewrite final_bind. cbn [modify returned final fst snd].
  generalize (eq_refl : rayIntersection
                          (set_rayIntersection (se_intersection e) s)
                        = se_intersection e).
  generalize (set_rayIntersection (se_intersection e) s). intros s1.
  match goal with
  | |- _ → rayIntersection (final (?m s1)) = _ =>
      assert (keeps (λ x, rayIntersection x = se_intersection e) m) as Hk
  end.
  { repeat first [ apply afterUpdate_keeps | keeps_step ]; auto. }
  apply Hk.
Qed.

End MethodFacts.

(** ** The claims on the frame state *)

(** C9.  Per-frame processing never writes [rayIntersection]: whatever the
    frame brings (a pose, no pose, no reference space, even a throw), the
    field is what it was; neither do [afterUpdate] and the session event
    handler.  A scene ray event whose source is this facade sets the field
    to the event's intersection, and one from any other source leaves the
    whole facade as it was and does nothing. *)
Theorem C9_rayIntersection_only_from_own_events
    (BUTTON_TRIGGER BUTTON_SQUEEZE : Z) hypot applyQuaternion :
  (∀ env s,
      rayIntersection (final (_onXrFrame hypot applyQuaternion env s))
      = rayIntersection s) ∧
  (∀ s, rayIntersection (final (afterUpdate s)) = rayIntersection s) ∧
  (∀ name s,
      rayIntersection
        (final (_onSessionEvent BUTTON_TRIGGER BUTTON_SQUEEZE name s))
      = rayIntersection s) ∧
  (∀ e s,
      se_eventSource e = Some (self s) →
      rayIntersection
        (final (_onSceneRayEvent BUTTON_TRIGGER BUTTON_SQUEEZE e s))
      = se_intersection e) ∧
  (∀ e s,
      se_eventSource e ≠ Some (self s) →
      _onSceneRayEvent BUTTON_TRIGGER BUTTON_SQUEEZE e s = (s, [], Some tt)).
Proof.
  split; [|split; [|split; [|split]]].
  - intros env s.
    by apply (onXrFrame_keeps hypot applyQuaternion
                (λ x, rayIntersection x = rayIntersection s)).
  - intros s.
    by apply (afterUpdate_keeps (λ x, rayIntersection x = rayIntersection s)).
  - intros name s. by rewrite onSessionEvent_run.
  - apply onSceneRayEvent_own_intersection.
  - apply onSceneRayEvent_other.
Qed.

(** C9, satisfiable: facade 7 holds intersection 40; a frame without a pose
    keeps it, its own click sets intersection 41, a click of facade 9 is
    ignored. *)
Lemma C9_rayIntersection_only_from_own_events_witness :
  let s := set_rayIntersection (Some 40%nat)
             (set_props (Some (sampleSource None)) (JSobject 3) true
                        sampleFacade) in
  let env := {| offsetReferenceSpace := Some 5%nat;
                getPose := λ _ _, None; date_now := 1000 |} in
  let ev src := {| se_type := click; se_target := 20%nat;
                   se_currentTarget := 8%nat; se_eventSource := Some src;
                   se_intersection := Some 41%nat; se_button := Some 0 |} in
  rayIntersection (final (_onXrFrame hypot_sqrt applyQuaternion_three env s))
    = Some 40%nat ∧
  rayIntersection (final (_onSceneRayEvent 0 1 (ev 7%nat) s)) = Some 41%nat ∧
  _onSceneRayEvent 0 1 (ev 9%nat) s = (s, [], Some tt).
Proof.
  intros s env ev.
  pose proof (C9_rayIntersection_only_from_own_events 0 1 hypot_sqrt
                applyQuaternion_three) as (Hframe & _ & _ & Hown & Hother).
  split; [|split].
  - apply (Hframe env s).
  - apply (Hown (ev 7%nat) s). reflexivity.
  - apply (Hother (ev 9%nat) s). discriminate.
Defined.

(** Until a frame comes with a reference space, nothing writes a pose. *)
Lemma run_noref_keeps_poses T S hypot aq ins s :
  Forall noReferenceSpace ins →
  targetRayPose s = None ∧ gripPose s = None →
  let s' := (run T S hypot aq ins s).1 in
  targetRayPose s' = None ∧ gripPose s' = None.
Proof.
  intros Hall. revert s.
  induction Hall as [|i ins Hi _ IH]; intros s Hs; [done|].
  cbn [run].
  assert (Hstep : targetRayPose (step T S hypot aq i s).1 = None
                  ∧ gripPose (step T S hypot aq i s).1 = None).
  { destruct i as [src sess p| |env|o name|o e]; cbn [step].
    - done.
    - by apply (afterUpdate_keeps
                  (λ x, targetRayPose x = None ∧ gripPose x = None)).
    - by apply (onXrFrame_keeps_noref hypot aq
                  (λ x, targetRayPose x = None ∧ gripPose x = None)).
    - case_decide; [by rewrite onSessionEvent_run|done].
    - case_decide; [|done].
      by apply (onSceneRayEvent_keeps T S
                  (λ x, targetRayPose x = None ∧ gripPose x = None)). }
  destruct (step T S hypot aq i s) as [s1 e1].
  specialize (IH s1 Hstep).
  destruct (run T S hypot aq ins s1) as [s2 e2]. exact IH.
Qed.

(** C7.  A frame delivered to a facade that has its input source returns
    without throwing.  With a reference space, the stored target-ray pose
    is what [getPose] answered for the target-ray space, so it is [null]
    when the query resolves nothing, and the stored grip pose is [null]
    when there is no grip space or the query for it resolves nothing.
    Without a reference space the frame leaves both poses as they were, and
    as long as no frame has come with a reference space since construction
    both are still [null]. *)
Theorem C7_unresolved_pose_is_null
    (BUTTON_TRIGGER BUTTON_SQUEEZE : Z) hypot applyQuaternion :
  (∀ env s src,
      xrInputSource s = Some src →
      let o := _onXrFrame hypot applyQuaternion env s in
      returned o = Some tt ∧
      match offsetReferenceSpace env with
      | Some ref =>
          targetRayPose (final o) = getPose env (targetRaySpace src) ref ∧
          gripPose (final o) = (gs ← gripSpace src; getPose env gs ref) ∧
          (getPose env (targetRaySpace src) ref = None →
           targetRayPose (final o) = None) ∧
          ((gs ← gripSpace src; getPose env gs ref) = None →
           gripPose (final o) = None)
      | None =>
          targetRayPose (final o) = targetRayPose s ∧
          gripPose (final o) = gripPose s
      end) ∧
  (∀ shared this scene ins,
      Forall noReferenceSpace ins →
      let s' := (run BUTTON_TRIGGER BUTTON_SQUEEZE hypot applyQuaternion ins
                     (constructor shared this scene)).1 in
      targetRayPose s' = None ∧ gripPose s' = None).
Proof.
  split.
  - intros env s src Hsrc o.
    destruct (wp_onXrFrame hypot applyQuaternion env src
                (λ _ s',
                   targetRayPose s' =
                     match offsetReferenceSpace env with
                     | Some ref => getPose env (targetRaySpace src) ref
                     | None => targetRayPose s
                     end ∧
                   gripPose s' =
                     match offsetReferenceSpace env with
                     | Some ref => gs ← gripSpace src; getPose env gs ref
                     | None => gripPose s
                     end) s Hsrc) as ([] & Hret & Ht & Hg); [done|].
    fold o in Hret, Ht, Hg. split; [done|].
    destruct (offsetReferenceSpace env) as [ref|]; [|done].
    repeat split; congruence.
  - intros shared this scene ins Hall.
    by apply run_noref_keeps_poses.
Qed.

(** C7, satisfiable: a tracked pointer with a grip space, a reference space
    and a runtime that resolves no pose; and two frames before any
    reference space exists. *)
Lemma C7_unresolved_pose_is_null_witness :
  let s := set_props (Some (sampleSource None)) (JSobject 3) true sampleFacade in
  let env ref := {| offsetReferenceSpace := ref;
                    getPose := λ _ _, None; date_now := 1000 |} in
  let o := _onXrFrame hypot_sqrt applyQuaternion_three (env (Some 5%nat)) s in
  (returned o = Some tt ∧ targetRayPose (final o) = None
   ∧ gripPose (final o) = None) ∧
  let s' := (run 0 1 hypot_sqrt applyQuaternion_three
               [InProps (Some (sampleSource None)) (JSobject 3) true;
                InFrame (env None); InUpdate; InFrame (env None)]
               (constructor Defaults_at_load 7 8)).1 in
  targetRayPose s' = None ∧ gripPose s' = None.
Proof.
  intros s env o.
  pose proof (C7_unresolved_pose_is_null 0 1 hypot_sqrt applyQuaternion_three)
    as [Hframe Hrun].
  split.
  - destruct (Hframe (env (Some 5%nat)) s (sampleSource None) eq_refl)
      as (Hret & _ & _ & Ht & Hg).
    split; [exact Hret|]. split; [apply Ht|apply Hg]; reflexivity.
  - apply (Hrun Defaults_at_load 7%nat 8%nat). repeat constructor.
Defined.

(** ** The claims on event translation *)

(** The table in the code agrees with the table in the specification when
    the two button ids differ. *)
Lemma xrTargetEvent_spec (BUTTON_TRIGGER BUTTON_SQUEEZE : Z) e :
  BUTTON_TRIGGER ≠ BUTTON_SQUEEZE →
  xrTargetEvent BUTTON_TRIGGER BUTTON_SQUEEZE e
  = secondaryEvent_spec BUTTON_TRIGGER BUTTON_SQUEEZE (se_button e) (se_type e).
Proof.
  intros Hne. unfold xrTargetEvent, secondaryEvent_spec, RAY_TARGET_EVENTS.
  destruct (se_button e) as [b|]; [|done]. simpl.
  rewrite lookup_insert. case_decide as Hs.
  - subst b. rewrite decide_False by done. rewrite decide_True by done.
    simpl. by destruct (se_type e).
  - rewrite lookup_insert. case_decide as Ht.
    + subst b. rewrite decide_True by done. simpl. by destruct (se_type e).
    + rewrite lookup_empty. simpl.
      rewrite decide_False by congruence. by rewrite decide_False by congruence.
Qed.

Lemma onSceneRayEvent_own_dispatches (BUTTON_TRIGGER BUTTON_SQUEEZE : Z) e s src :
  xrInputSource s = Some src →
  se_eventSource e = Some (self s) →
  returned (_onSceneRayEvent BUTTON_TRIGGER BUTTON_SQUEEZE e s) = Some tt ∧
  dispatchesOf (effects (_onSceneRayEvent BUTTON_TRIGGER BUTTON_SQUEEZE e s)) =
    match xrTargetEvent BUTTON_TRIGGER BUTTON_SQUEEZE e with
    | Some name =>
        [(se_target e,
          {| ev_name := name; ev_bubbles := true; ev_eventSource := self s |})]
    | None => []
    end.
Proof.
  intros Hsrc Hown. unfold _onSceneRayEvent.
  rewrite effects_bind, returned_bind. cbn [get returned final effects fst snd].
  rewrite decide_True by done.
  rewrite effects_bind, returned_bind.
  cbn [modify returned final effects fst snd].
  rewrite effects_bind, returned_bind.
  destruct (afterUpdate_run (set_rayIntersection (se_intersection e) s) src Hsrc)
    as (s' & Hrun & _).
  rewrite Hrun. cbn [returned final effects fst snd].
  rewrite effects_bind, returned_bind.
  match goal with
  | |- context [match ?h with Some hp => _ | None => ret () end s'] =>
      destruct h as [hp|]
  end.
  - unfold bind, deref. rewrite Hsrc. cbn [ret].
    destruct (firstActuator src);
      destruct (xrTargetEvent BUTTON_TRIGGER BUTTON_SQUEEZE e); done.
  - destruct (xrTargetEvent BUTTON_TRIGGER BUTTON_SQUEEZE e); done.
Qed.

(** C5.  A scene ray event whose source is this facade, delivered to a
    facade that has its input source: if the event's button and type are in
    the table (TRIGGER or SQUEEZE with mousedown, mouseup or click),
    exactly one event is dispatched, to the event's target, with the
    table's name, [bubbles] true and [eventSource] this facade; for any
    other button and type nothing is dispatched. *)
Theorem C5_secondary_event_dispatch (BUTTON_TRIGGER BUTTON_SQUEEZE : Z) e s src :
  BUTTON_TRIGGER ≠ BUTTON_SQUEEZE →
  xrInputSource s = Some src →
  se_eventSource e = Some (self s) →
  dispatchesOf (effects (_onSceneRayEvent BUTTON_TRIGGER BUTTON_SQUEEZE e s)) =
    match secondaryEvent_spec BUTTON_TRIGGER BUTTON_SQUEEZE
            (se_button e) (se_type e) with
    | Some name =>
        [(se_target e,
          {| ev_name := name; ev_bubbles := true; ev_eventSource := self s |})]
    | None => []
    end.
Proof.
  intros Hne Hsrc Hown.
  rewrite <- xrTargetEvent_spec by done.
  by apply (onSceneRayEvent_own_dispatches _ _ _ _ src).
Qed.

(** C5, satisfiable: with TRIGGER 0 and SQUEEZE 1, the facade's own click
    with the squeeze button on target 20 dispatches [xrsqueeze] there. *)
Lemma C5_secondary_event_dispatch_witness :
  let s := set_props (Some (sampleSource None)) (JSobject 3) true sampleFacade in
  let e := {| se_type := click; se_target := 20; se_currentTarget := 8;
              se_eventSource := Some 7%nat; se_intersection := Some 41%nat;
              se_button := Some 1 |} in
  dispatchesOf (effects (_onSceneRayEvent 0 1 e s)) =
  [(20%nat, {| ev_name := "xrsqueeze"; ev_bubbles := true;
               ev_eventSource := 7 |})].
Proof.
  intros s e.
  apply (C5_secondary_event_dispatch 0 1 e s (sampleSource None)).
  - lia.
  - reflexivity.
  - reflexivity.
Defined.

Lemma loopActions_button p now r k bs pt a :
  a ∈ loopActions p now r k bs pt →
  ∃ i, (k ≤ i < k + length bs)%nat ∧ button a = Some (Z.of_nat i)
       ∧ type a ≠ wheel.
Proof.
  revert k. induction bs as [|b bs IH]; intros k; simpl.
  - by intros ?%elem_of_nil.
  - intros [Ha|Ha]%elem_of_app.
    + apply buttonActions_button in Ha as [Hb Ht]. exists k. split; [lia|done].
    + destruct (IH _ Ha) as (i & Hi & Hb & Ht). exists i. split; [lia|done].
Qed.

(** C8 (as amended).  On the session event path the handler emits exactly
    one action, and its button is TRIGGER or SQUEEZE.  On the polling path
    every action is either a button action whose [button] is the index of
    a button of the gamepad, whatever that index is, or a wheel action,
    which has no [button] field. *)
Theorem C8_button_field (BUTTON_TRIGGER BUTTON_SQUEEZE : Z) hypot :
  (∀ name s, ∃ a,
      effects (_onSessionEvent BUTTON_TRIGGER BUTTON_SQUEEZE name s)
      = [RayPointerAction a] ∧
      (button a = Some BUTTON_TRIGGER ∨ button a = Some BUTTON_SQUEEZE)) ∧
  (∀ now g s a,
      a ∈ actionsOf (effects (_trackGamepadState hypot now g s)) →
      (type a ≠ wheel ∧
       ∃ i, (i < length (buttons g))%nat ∧ button a = Some (Z.of_nat i)) ∨
      (type a = wheel ∧ button a = None)).
Proof.
  split.
  - intros name s. rewrite onSessionEvent_run. eexists. split; [reflexivity|].
    simpl. destruct (starts_with "squeeze" name); auto.
  - intros now g s a. rewrite trackGamepadState_run. unfold effects. simpl.
    rewrite actionsOf_app, !actionsOf_actions.
    intros [Ha|Ha]%elem_of_app.
    + left. rewrite trackButtons_actions in Ha.
      apply loopActions_button in Ha as (i & Hi & Hb & Ht).
      split; [done|]. exists i. split; [lia|done].
    + right. by apply axisLoop_button in Ha.
Qed.

(** C8 as stated fails: whatever the two button ids are, a poll of a
    gamepad with three pressed buttons emits actions for buttons 0, 1 and
    2, and one of them is neither id. *)
Lemma C8_counterexample_third_button :
  ¬ ∃ trigger squeeze : Z,
      ∀ a, a ∈ actionsOf
                 (effects (_trackGamepadState hypot_sqrt 1000
                             (sampleGamepad [true; true; true] [])
                             sampleFacade)) →
           button a = Some trigger ∨ button a = Some squeeze.
Proof.
  intros (trigger & squeeze & H).
  pose proof (H (buttonAction (_ray sampleFacade) mousedown 0)
                ltac:(vm_compute; repeat constructor)) as H0.
  pose proof (H (buttonAction (_ray sampleFacade) mousedown 1)
                ltac:(vm_compute; repeat constructor)) as H1.
  pose proof (H (buttonAction (_ray sampleFacade) mousedown 2)
                ltac:(vm_compute; repeat constructor)) as H2.
  simpl in H0, H1, H2.
  destruct H0 as [H0|H0], H1 as [H1|H1], H2 as [H2|H2]; congruence.
Qed.

(** *** Listener registries *)

Lemma toggleEvents_off_subseteq `{Countable T} (target : JsRef)
    (evs : list T) (reg : gset (ObjId * T)) :
  toggleEvents target false evs reg ⊆ reg.
Proof.
  unfold toggleEvents. destruct target as [| |o]; [done|done|].
  revert reg. induction evs as [|ty evs IH]; intros reg; simpl; [done|].
  etrans; [apply IH|]. intros x Hx. by apply elem_of_difference in Hx as [? _].
Qed.

Lemma toggleEvents_on_elem `{Countable T} (o : ObjId) (evs : list T)
    (reg : gset (ObjId * T)) (ty : T) :
  ty ∈ evs → (o, ty) ∈ toggleEvents (JSobject o) true evs reg.
Proof.
  unfold toggleEvents.
  assert (Hmono : ∀ (l : list T) (r : gset (ObjId * T)) x,
            x ∈ r → x ∈ foldl (λ acc ty0, acc ∪ {[(o, ty0)]}) r l).
  { induction l as [|y l IH]; intros r x Hx; simpl; [done|].
    apply IH. set_solver. }
  revert reg. induction evs as [|y evs IH]; intros reg Hin; simpl.
  - by apply elem_of_nil in Hin.
  - apply elem_of_cons in Hin as [->|Hin].
    + apply Hmono. set_solver.
    + by apply IH.
Qed.

(** With a standard gamepad, or before any input source is assigned,
    [afterUpdate] registers nothing: the session listeners can only
    shrink. *)
Lemma afterUpdate_standard_subseteq s :
  standardOrUnset s →
  sessionListeners (final (afterUpdate s)) ⊆ sessionListeners s.
Proof.
  intros Hstd. destruct (xrInputSource s) as [src|] eqn:Hsrc.
  - destruct (afterUpdate_run s src Hsrc) as (s' & Hrun & Hrest).
    rewrite Hrun. unfold final. simpl.
    destruct Hrest as (_ & _ & _ & _ & _ & _ & _ & _ & _ & _ & _ & ->).
    rewrite (Hstd src Hsrc). case_decide; [|done].
    apply toggleEvents_off_subseteq.
  - unfold afterUpdate, _isXrStandardGamepad, bind, get, modify, deref, throw,
      final. simpl. rewrite Hsrc.
    case_decide; simpl; [|done]. rewrite Hsrc. simpl.
    apply toggleEvents_off_subseteq.
Qed.

Lemma afterUpdate_keeps_unsubscribed :
  keeps (λ s, sessionListeners s = ∅ ∧ standardOrUnset s) afterUpdate.
Proof.
  intros s [Hempty Hstd]. split.
  - pose proof (afterUpdate_standard_subseteq s Hstd) as Hsub.
    rewrite Hempty in Hsub. set_solver.
  - revert Hstd.
    apply (afterUpdate_keeps standardOrUnset); by intros.
Qed.

(** As long as the parent assigns only standard-mapped input sources, no
    session listener is ever registered. *)
Lemma run_standard_unsubscribed T S hypot aq ins s :
  Forall standardProps ins →
  sessionListeners s = ∅ ∧ standardOrUnset s →
  let s' := (run T S hypot aq ins s).1 in
  sessionListeners s' = ∅ ∧ standardOrUnset s'.
Proof.
  intros Hall. revert s.
  induction Hall as [|i ins Hi _ IH]; intros s Hs; [done|].
  cbn [run].
  assert (Hstep : sessionListeners (step T S hypot aq i s).1 = ∅
                  ∧ standardOrUnset (step T S hypot aq i s).1).
  { destruct i as [src sess p| |env|o name|o e]; cbn [step].
    - destruct Hs as [Hempty _]. split; [done|].
      destruct Hi as (x & -> & Hx). intros y Hy. simpl in Hy. congruence.
    - by apply afterUpdate_keeps_unsubscribed.
    - revert Hs. apply (onXrFrame_keeps_with hypot aq
                          (λ x, sessionListeners x = ∅ ∧ standardOrUnset x));
        auto using afterUpdate_keeps_unsubscribed.
    - case_decide; [by rewrite onSessionEvent_run|done].
    - case_decide; [|done].
      revert Hs. apply (onSceneRayEvent_keeps_with T S
                          (λ x, sessionListeners x = ∅ ∧ standardOrUnset x));
        auto using afterUpdate_keeps_unsubscribed. }
  destruct (step T S hypot aq i s) as [s1 e1].
  specialize (IH s1 Hstep).
  destruct (run T S hypot aq ins s1) as [s2 e2]. exact IH.
Qed.

(** C3 fails on the code: the capability check is made when the session
    changes and not again.  A facade that got session 3 while its input
    source had no gamepad stays subscribed to all six events after the
    parent assigns, under the same session, a source with a standard-mapped
    gamepad.  From then on both input paths are live: when the trigger
    (button 0) goes down, the frame's poll emits a mousedown and the
    session's [selectstart] reaches the handler and emits it again. *)
Theorem C3_stale_subscription_double_fires :
  let std := sampleSource (Some (sampleGamepad [true] [])) in
  let env := {| offsetReferenceSpace := None; getPose := λ _ _, None;
                date_now := 1000 |} in
  let s' := (run 0 1 hypot_sqrt applyQuaternion_three
               [InProps (Some (sampleSource None)) (JSobject 3) true; InUpdate;
                InProps (Some std) (JSobject 3) true; InUpdate]
               sampleFacade).1 in
  xrInputSource s' = Some std ∧ xrStandard std = true ∧
  xrSession s' = JSobject 3 ∧
  sessionListeners s'
  = list_to_set ((λ name, (3%nat, name)) <$> XRSESSION_EVENTS) ∧
  actionKinds (step 0 1 hypot_sqrt applyQuaternion_three
                    (InSessionEvent 3 "select") s').2
  = [(click, Some 0)] ∧
  actionKinds (run 0 1 hypot_sqrt applyQuaternion_three
                   [InFrame env; InSessionEvent 3 "selectstart"] s').2
  = [(mousedown, Some 0); (mousedown, Some 0)].
Proof. vm_compute. repeat split. Qed.

(** X20.  What the capability check does guarantee.  With a gamepad that
    is present and standard-mapped, [afterUpdate] registers no session
    listener (the registry can only lose entries), and in any history
    since construction in which the parent assigns only such input sources
    the registry is empty, so that no session event reaches the handler.
    With the gamepad absent or not standard-mapped, the [afterUpdate] that
    sees a new session object registers the handler for all six events on
    it.  The handler, whenever it receives an event, emits exactly one
    action: mousedown if the name ends in "start", mouseup if it ends in
    "end", click otherwise; SQUEEZE if the name starts with "squeeze",
    TRIGGER otherwise. *)
Theorem X20_session_path_guarantees
    (BUTTON_TRIGGER BUTTON_SQUEEZE : Z) hypot applyQuaternion :
  (∀ s src,
      xrInputSource s = Some src → xrStandard src = true →
      sessionListeners (final (afterUpdate s)) ⊆ sessionListeners s) ∧
  (∀ shared this scene ins,
      Forall standardProps ins →
      let s' := (run BUTTON_TRIGGER BUTTON_SQUEEZE hypot applyQuaternion ins
                     (constructor shared this scene)).1 in
      sessionListeners s' = ∅ ∧
      ∀ o name,
        step BUTTON_TRIGGER BUTTON_SQUEEZE hypot applyQuaternion
             (InSessionEvent o name) s' = (s', [])) ∧
  (∀ s src o,
      xrInputSource s = Some src → xrStandard src = false →
      xrSession s = JSobject o → _lastXrSession s ≠ JSobject o →
      ∀ name, name ∈ XRSESSION_EVENTS →
              (o, name) ∈ sessionListeners (final (afterUpdate s))) ∧
  (∀ name s,
      effects (_onSessionEvent BUTTON_TRIGGER BUTTON_SQUEEZE name s) =
      [RayPointerAction
         {| ray := _ray s;
            type := if ends_with "start" name then mousedown
                    else if ends_with "end" name then mouseup
                    else click;
            button := Some (if starts_with "squeeze" name
                            then BUTTON_SQUEEZE else BUTTON_TRIGGER);
            deltaX := None; deltaY := None; deltaMode := None |}]) ∧
  (∀ s,
      (λ name, actionKinds
                 (effects (_onSessionEvent BUTTON_TRIGGER BUTTON_SQUEEZE
                                           name s)))
        <$> XRSESSION_EVENTS =
      [[(mousedown, Some BUTTON_TRIGGER)]; [(click, Some BUTTON_TRIGGER)];
       [(mouseup, Some BUTTON_TRIGGER)];
       [(mousedown, Some BUTTON_SQUEEZE)]; [(click, Some BUTTON_SQUEEZE)];
       [(mouseup, Some BUTTON_SQUEEZE)]]).
Proof.
  split; [|split; [|split; [|split]]].
  - intros s src Hsrc Hstd. apply afterUpdate_standard_subseteq.
    intros src' Hsrc'. congruence.
  - intros shared this scene ins Hall.
    destruct (run_standard_unsubscribed BUTTON_TRIGGER BUTTON_SQUEEZE hypot
                applyQuaternion ins (constructor shared this scene) Hall)
      as [Hempty _]; [by split|].
    cbv zeta. split; [exact Hempty|].
    intros o name. cbn [step]. rewrite Hempty.
    rewrite decide_False by set_solver. done.
  - intros s src o Hsrc Hstd Hsess Hlast name Hname.
    destruct (afterUpdate_run s src Hsrc) as (s' & Hrun & Hrest).
    rewrite Hrun. unfold final. simpl.
    destruct Hrest as (_ & _ & _ & _ & _ & _ & _ & _ & _ & _ & _ & ->).
    rewrite Hstd, Hsess. rewrite decide_True by congruence.
    by apply toggleEvents_on_elem.
  - intros name s. by rewrite onSessionEvent_run.
  - intros s. reflexivity.
Qed.

(** X20, satisfiable: a standard-mapped source through a session change, a
    frame and a stray session event; and a source without a gamepad at its
    first session. *)
Lemma X20_session_path_guarantees_witness :
  let std := sampleSource (Some (sampleGamepad [true] [])) in
  let s := set_props (Some std) (JSobject 3) true sampleFacade in
  let s' := (run 0 1 hypot_sqrt applyQuaternion_three
               [InProps (Some std) (JSobject 3) true; InUpdate;
                InFrame {| offsetReferenceSpace := None;
                           getPose := λ _ _, None; date_now := 1000 |};
                InSessionEvent 3 "select"]
               (constructor Defaults_at_load 7 8)).1 in
  let t := set_props (Some (sampleSource None)) (JSobject 3) true sampleFacade in
  sessionListeners (final (afterUpdate s)) ⊆ sessionListeners s ∧
  sessionListeners s' = ∅ ∧
  (3%nat, "squeezeend") ∈ sessionListeners (final (afterUpdate t)).
Proof.
  intros std s s' t.
  pose proof (X20_session_path_guarantees 0 1 hypot_sqrt applyQuaternion_three)
    as (Hstd & Hrun & Hsub & _).
  split; [|split].
  - apply (Hstd s std); reflexivity.
  - apply (Hrun Defaults_at_load 7%nat 8%nat). repeat constructor. exists std. split; reflexivity.
  - apply (Hsub t (sampleSource None) 3%nat); try reflexivity.
    + discriminate.
    + unfold XRSESSION_EVENTS. repeat constructor.
Defined.

(** ** The claim on the axis loop *)

(** IEEE comparison is antisymmetric. *)
Lemma SFcompare_swap x y :
  SFcompare y x = option_map CompOpp (SFcompare x y).
Proof.
  destruct x as [sx|sx| |sx mx ex], y as [sy|sy| |sy my ey];
    try done; try (by destruct sx); try (by destruct sy);
    try (by destruct sx, sy).
  pose proof (Pos.compare_cont_antisym mx my Eq) as Hm. simpl in Hm.
  destruct sx, sy; simpl; try done.
  - rewrite (Z.compare_antisym ex ey).
    destruct (ex ?= ey)%Z; simpl; try done.
    by rewrite <- Hm.
  - rewrite (Z.compare_antisym ex ey).
    destruct (ex ?= ey)%Z; simpl; try done.
    by rewrite <- Hm.
Qed.

(** On binary64 numbers, [x <= y] excludes [y < x]. *)
Lemma float_leb_not_ltb (x y : float) :
  PrimFloat.leb x y = true → PrimFloat.ltb y x = false.
Proof.
  rewrite leb_spec, ltb_spec. unfold SFleb, SFltb.
  rewrite (SFcompare_swap (Prim2SF x) (Prim2SF y)).
  by destruct (SFcompare (Prim2SF x) (Prim2SF y)) as [[]|].
Qed.

Lemma trackAxes_pairs hypot p r axs :
  trackAxes hypot p r axs =
  flat_map (λ j, wheelActions hypot p r axs (2 * j))
           (seq 0 (Nat.div2 (S (length axs)))).
Proof.
  unfold trackAxes. change 0%nat with (2 * 0)%nat at 1.
  rewrite (axisLoop_pairs hypot p r (length axs) axs 0) by lia.
  by rewrite Nat.sub_0_r.
Qed.

(** C4 (as amended).  For the axis pair at indices [2k] and [2k+1], with
    deltaX and deltaY the two axis values times 10, an axis that is out of
    range (or zero, or NaN) counting as 0: if the magnitude is at most 0.1
    the pair emits nothing; if it exceeds 0.1 the pair emits, when
    [isPointing] holds, exactly one wheel action with those deltas and
    delta mode 0, and nothing when [isPointing] does not hold.  A poll
    emits, as its wheel actions, what the pairs 0-1, 2-3, ... emit, in
    order. *)
Theorem C4_wheel_deadzone hypot (p : bool) (r : Ray) (axs : list float) (k : nat) :
  let deltaX := axisDelta axs (2 * k) in
  let deltaY := axisDelta axs (2 * k + 1) in
  (∀ i, (length axs ≤ i)%nat → or_zero (axs !! i) = 0%float) ∧
  (PrimFloat.leb (hypot deltaX deltaY) 0.1 = true →
   wheelActions hypot p r axs (2 * k) = []) ∧
  (PrimFloat.ltb 0.1 (hypot deltaX deltaY) = true →
   wheelActions hypot p r axs (2 * k) =
   if p then
     [{| ray := r; type := wheel; button := None;
         deltaX := Some deltaX; deltaY := Some deltaY; deltaMode := Some 0 |}]
   else []) ∧
  trackAxes hypot p r axs =
    flat_map (λ j, wheelActions hypot p r axs (2 * j))
             (seq 0 (Nat.div2 (S (length axs)))) ∧
  (∀ now g s,
      filter (λ a, type a = wheel)
             (actionsOf (effects (_trackGamepadState hypot now g s)))
      = trackAxes hypot (isPointing s) (_ray s) (axes g)).
Proof.
  intros dX dY. split; [|split; [|split; [|split]]].
  - intros i Hi. by rewrite lookup_ge_None_2.
  - intros Hle. apply float_leb_not_ltb in Hle.
    unfold wheelActions. fold dX dY. by rewrite Hle.
  - intros Hgt. unfold wheelActions. fold dX dY. by rewrite Hgt.
  - apply trackAxes_pairs.
  - intros now g s. rewrite trackGamepadState_run. unfold effects. simpl.
    rewrite actionsOf_app, !actionsOf_actions, filter_app.
    rewrite filter_none, filter_all; [done| |].
    + apply Forall_forall. intros a Ha.
      by apply axisLoop_button in Ha as [Ht _].
    + apply Forall_forall. intros a Ha.
      rewrite trackButtons_actions in Ha.
      by apply loopActions_button in Ha as (i & _ & _ & Ht).
Qed.

(** C4, satisfiable: axes 0.5, 0 and a lone 0.005 with pointing enabled;
    the first pair scrolls, the second is inside the deadzone. *)
Lemma C4_wheel_deadzone_witness :
  let r := _ray sampleFacade in
  let axs := [0.5; 0; 0.005]%float in
  wheelActions hypot_sqrt true r axs 0 =
    [{| ray := r; type := wheel; button := None; deltaX := Some 5%float;
        deltaY := Some 0%float; deltaMode := Some 0 |}] ∧
  wheelActions hypot_sqrt true r axs 2 = [] ∧
  or_zero (axs !! 3%nat) = 0%float.
Proof.
  intros r axs.
  pose proof (C4_wheel_deadzone hypot_sqrt true r axs 0) as (_ & _ & H0 & _).
  pose proof (C4_wheel_deadzone hypot_sqrt true r axs 1) as (Hz & H1 & _).
  split; [|split].
  - apply H0. reflexivity.
  - apply H1. reflexivity.
  - apply Hz. simpl. lia.
Defined.

(** C4 as stated fails: axes 1 and 0 give a magnitude of 10, above 0.1, and
    with [isPointing] false the poll emits no wheel action. *)
Lemma C4_counterexample_wheel_not_pointing :
  let axs := [1; 0]%float in
  PrimFloat.ltb 0.1 (hypot_sqrt (axisDelta axs 0) (axisDelta axs 1)) = true ∧
  actionsOf (effects (pollWith hypot_sqrt false 1000 (sampleGamepad [] axs)
                               sampleFacade)) = [].
Proof. vm_compute. split; reflexivity. Qed.

(** ** A boundary of the timestamp encoding

    The stored timestamp doubles as the pressed flag, so a press observed
    when [Date.now()] reads 0 is stored as a falsy 0: the next poll takes
    the held button for a new press.  The statements above about presses
    therefore assume a nonzero clock at the press. *)
Lemma press_at_clock_zero_repeats :
  let s1 := final (pollWith hypot_sqrt true 0 (sampleGamepad [true] [])
                            sampleFacade) in
  let again := pollWith hypot_sqrt true 16 (sampleGamepad [true] []) s1 in
  storedTime 0 s1 = PTtime 0 ∧
  truthy (storedTime 0 s1) = false ∧
  actionKinds (effects again) = [(mousedown, Some 0)].
Proof. vm_compute. repeat split. Qed.

(** * Further properties of the code *)

(** ** [toggleEvents] *)

Lemma toggle_on_elem `{Countable T} (o : ObjId) (evs : list T)
    (reg : gset (ObjId * T)) (x : ObjId * T) :
  x ∈ foldl (λ acc ty, acc ∪ {[(o, ty)]}) reg evs
  ↔ x ∈ reg ∨ (x.1 = o ∧ x.2 ∈ evs).
Proof.
  revert reg. induction evs as [|ty evs IH]; intros reg; simpl.
  - split; [by left|]. intros [?|[_ ?%elem_of_nil]]; done.
  - rewrite IH, elem_of_union, elem_of_singleton, elem_of_cons.
    destruct x as [o' ty']. simpl. split.
    + intros [[?|Heq]|[? ?]]; [by left| |by right; split; [|right]].
      injection Heq as -> ->. right. split; [done|by left].
    + intros [?|[-> [->|?]]]; [by left; left|by left; right|by right].
Qed.

Lemma toggle_off_elem `{Countable T} (o : ObjId) (evs : list T)
    (reg : gset (ObjId * T)) (x : ObjId * T) :
  x ∈ foldl (λ acc ty, acc ∖ {[(o, ty)]}) reg evs
  ↔ x ∈ reg ∧ ¬ (x.1 = o ∧ x.2 ∈ evs).
Proof.
  revert reg. induction evs as [|ty evs IH]; intros reg; simpl.
  - split; [|by intros [? _]]. intros ?. split; [done|].
    by intros [_ ?%elem_of_nil].
  - rewrite IH, elem_of_difference, elem_of_singleton, elem_of_cons.
    destruct x as [o' ty']. simpl. split.
    + intros [[? Hne] Hno]. split; [done|].
      intros [-> [->|?]]; [by apply Hne|by apply Hno].
    + intros [? Hno]. split; [split; [done|]|].
      * intros Heq. injection Heq as -> ->. apply Hno. split; [done|by left].
      * intros [-> ?]. apply Hno. split; [done|by right].
Qed.

Lemma toggleEvents_off_elem `{Countable T} (target : JsRef)
    (evs : list T) (reg : gset (ObjId * T)) (o : ObjId) (ty : T) :
  (o, ty) ∈ toggleEvents target false evs reg →
  (o, ty) ∈ reg ∧ ¬ (target = JSobject o ∧ ty ∈ evs).
Proof.
  unfold toggleEvents. destruct target as [| |o'].
  - intros ?. split; [done|by intros [? _]].
  - intros ?. split; [done|by intros [? _]].
  - rewrite toggle_off_elem. simpl. intros [? Hno]. split; [done|].
    intros [Heq ?]. injection Heq as ->. by apply Hno.
Qed.

Lemma toggleEvents_on_elem_inv `{Countable T} (target : JsRef)
    (evs : list T) (reg : gset (ObjId * T)) (o : ObjId) (ty : T) :
  (o, ty) ∈ toggleEvents target true evs reg →
  (o, ty) ∈ reg ∨ (target = JSobject o ∧ ty ∈ evs).
Proof.
  unfold toggleEvents. destruct target as [| |o']; [by left|by left|].
  rewrite toggle_on_elem. simpl. intros [?|[-> ?]]; [by left|by right].
Qed.

(** X1.  What [toggleEvents] leaves registered: adding registers the events
    on the target besides what was there; removing unregisters exactly the
    events on the target; a [null] or [undefined] target changes nothing. *)
Theorem X1_toggleEvents_membership `{Countable T} (target : JsRef)
    (evs : list T) (reg : gset (ObjId * T)) (o : ObjId) (ty : T) :
  ((o, ty) ∈ toggleEvents target true evs reg
   ↔ (o, ty) ∈ reg ∨ (target = JSobject o ∧ ty ∈ evs)) ∧
  ((o, ty) ∈ toggleEvents target false evs reg
   ↔ (o, ty) ∈ reg ∧ ¬ (target = JSobject o ∧ ty ∈ evs)) ∧
  (target = JSnull ∨ target = JSundefined →
   ∀ on, toggleEvents target on evs reg = reg).
Proof.
  unfold toggleEvents. split; [|split].
  - destruct target as [| |o'].
    + split; [by left|intros [?|[? _]]; done].
    + split; [by left|intros [?|[? _]]; done].
    + rewrite toggle_on_elem. simpl. split.
      * intros [?|[-> ?]]; [by left|by right].
      * intros [?|[Heq ?]]; [by left|]. injection Heq as ->. by right.
  - destruct target as [| |o'].
    + split; [|by intros [? _]]. intros ?. split; [done|by intros [? _]].
    + split; [|by intros [? _]]. intros ?. split; [done|by intros [? _]].
    + rewrite toggle_off_elem. simpl. split.
      * intros [? Hno]. split; [done|]. intros [Heq ?].
        injection Heq as ->. by apply Hno.
      * intros [? Hno]. split; [done|]. intros [-> ?]. by apply Hno.
  - by intros [->| ->].
Qed.

(** X2.  Listener toggling composes like set operations: adding twice is
    adding once and removing twice is removing once; removing after adding
    is removing; adding after removing is adding.  Removing after adding
    gives the registry back exactly when none of the events was registered
    on the target before. *)
Theorem X2_toggleEvents_compose `{Countable T} (target : JsRef)
    (evs : list T) (reg : gset (ObjId * T)) :
  toggleEvents target true evs (toggleEvents target true evs reg)
    = toggleEvents target true evs reg ∧
  toggleEvents target false evs (toggleEvents target false evs reg)
    = toggleEvents target false evs reg ∧
  toggleEvents target false evs (toggleEvents target true evs reg)
    = toggleEvents target false evs reg ∧
  toggleEvents target true evs (toggleEvents target false evs reg)
    = toggleEvents target true evs reg ∧
  (toggleEvents target false evs (toggleEvents target true evs reg) = reg
   ↔ ∀ o ty, target = JSobject o → ty ∈ evs → (o, ty) ∉ reg).
Proof.
  split; [|split; [|split; [|split]]].
  1-4: unfold toggleEvents; destruct target as [| |o]; [done|done|];
    apply set_eq; intros x;
    rewrite ?toggle_on_elem, ?toggle_off_elem;
    rewrite ?toggle_on_elem, ?toggle_off_elem;
    destruct (decide (x.1 = o ∧ x.2 ∈ evs)); tauto.
  split.
  - intros Hback o ty -> Hty Hin. rewrite <- Hback in Hin.
    apply toggleEvents_off_elem in Hin as [_ Hno]. by apply Hno.
  - intros Hfresh. unfold toggleEvents. destruct target as [| |o]; [done|done|].
    apply set_eq. intros x. rewrite toggle_off_elem, toggle_on_elem.
    split; [tauto|]. intros Hx. split; [by left|].
    intros [Ho Hty]. destruct x as [o' ty']. simpl in *. subst o'.
    by apply (Hfresh o ty').
Qed.

(** ** Session listeners follow the session *)

(** What [afterUpdate] does to the listener bookkeeping, with or without an
    input source (without one it throws, after the removal). *)
Lemma afterUpdate_bookkeeping s :
  _lastXrSession (final (afterUpdate s)) = xrSession s ∧
  sceneListeners (final (afterUpdate s)) = sceneListeners s ∧
  sessionListeners (final (afterUpdate s)) =
    if decide (xrSession s ≠ _lastXrSession s) then
      let reg := toggleEvents (_lastXrSession s) false XRSESSION_EVENTS
                              (sessionListeners s) in
      match xrInputSource s with
      | Some src =>
          if xrStandard src then reg
          else toggleEvents (xrSession s) true XRSESSION_EVENTS reg
      | None => reg
      end
    else sessionListeners s.
Proof.
  destruct (xrInputSource s) as [src|] eqn:Hsrc.
  - destruct (afterUpdate_run s src Hsrc) as (s' & Hrun & Hrest).
    rewrite Hrun. unfold final. simpl.
    by destruct Hrest as (_ & _ & _ & _ & _ & _ & _ & _ & _ & -> & -> & ->).
  - unfold afterUpdate, _isXrStandardGamepad, bind, get, modify, deref, throw,
      final. simpl. rewrite Hsrc.
    case_decide as Hne; simpl; [by rewrite Hsrc|].
    by rewrite Hne.
Qed.

Lemma afterUpdate_keeps_onLastSession : keeps onLastSession afterUpdate.
Proof.
  intros s Hinv o name.
  destruct (afterUpdate_bookkeeping s) as (-> & _ & ->).
  case_decide as Hne.
  - assert (Hreg : ∀ x, x ∉ toggleEvents (_lastXrSession s) false
                              XRSESSION_EVENTS (sessionListeners s)).
    { intros [o' n'] Hin.
      apply (toggleEvents_off_elem (_lastXrSession s)) in Hin
        as [Hin Hno].
      apply Hno. by apply Hinv. }
    cbv zeta. destruct (xrInputSource s) as [src|];
      [destruct (xrStandard src)|]; try (by intros ?%Hreg).
    unfold toggleEvents at 1. destruct (xrSession s) as [| |o2];
      try (by intros ?%Hreg).
    rewrite toggle_on_elem. simpl. intros [?%Hreg|[-> ?]]; done.
  - rewrite Hne. apply Hinv.
Qed.

(** An invariant of the field writes and of [afterUpdate] is an invariant
    of every history. *)
Lemma run_invariant T S hypot aq (I : Facade → Prop) :
  (∀ src sess p s, I s → I (set_props src sess p s)) →
  (∀ x s, I s → I (set__ray x s)) →
  (∀ x y s, I s → I (set_poses x y s)) →
  (∀ x s, I s → I (set__buttonPresses x s)) →
  (∀ x s, I s → I (set_rayIntersection x s)) →
  keeps I afterUpdate →
  ∀ ins s, I s → I (run T S hypot aq ins s).1.
Proof.
  intros Hprops Hray Hposes Hpresses Hint Hupd ins.
  induction ins as [|i ins IH]; intros s Hs; [done|].
  cbn [run].
  assert (Hstep : I (step T S hypot aq i s).1).
  { destruct i as [src sess p| |env|o name|o e]; cbn [step].
    - by apply Hprops.
    - by apply Hupd.
    - revert Hs. by apply (onXrFrame_keeps_with hypot aq I).
    - case_decide; [by rewrite onSessionEvent_run|done].
    - case_decide; [|done].
      revert Hs. by apply (onSceneRayEvent_keeps_with T S I). }
  destruct (step T S hypot aq i s) as [s1 e1].
  specialize (IH s1 Hstep).
  destruct (run T S hypot aq ins s1) as [s2 e2]. exact IH.
Qed.

Lemma afterUpdate_keeps_onScene scene : keeps (onScene scene) afterUpdate.
Proof.
  intros s Hinv o ty.
  destruct (afterUpdate_bookkeeping s) as (_ & -> & _). apply Hinv.
Qed.

Lemma constructor_onScene shared this scene : onScene scene (constructor shared this scene).
Proof.
  intros o ty. unfold constructor. cbn [sceneListeners].
  intros Hin.
  apply toggleEvents_on_elem_inv in Hin.
  destruct Hin as [Hin|[Heq Hty]]; [by apply not_elem_of_empty in Hin|].
  by injection Heq as ->.
Qed.

(** X3.  In every history since construction, whatever the parent assigns
    and whatever events and frames arrive, each registered session listener
    is for one of the six session events and sits on the session object
    that [afterUpdate] saw last: the registry never points at a session the
    facade has moved away from. *)
Theorem X3_listeners_on_last_session
    (BUTTON_TRIGGER BUTTON_SQUEEZE : Z) hypot applyQuaternion shared this scene ins :
  onLastSession
    (run BUTTON_TRIGGER BUTTON_SQUEEZE hypot applyQuaternion ins
         (constructor shared this scene)).1.
Proof.
  apply (run_invariant _ _ _ _ onLastSession);
    try (intros; assumption).
  - apply afterUpdate_keeps_onLastSession.
  - intros o name Hin. by apply not_elem_of_empty in Hin.
Qed.

(** X4.  The [afterUpdate] that sees a changed session, on a facade whose
    listeners sit on the previous session: afterwards the handler is
    registered for exactly the six events on the new session object if the
    gamepad is absent or not standard-mapped, and for nothing at all if the
    gamepad is standard-mapped or the new session is [null]; nothing stays
    on the previous session. *)
Theorem X4_session_switch s src :
  xrInputSource s = Some src →
  onLastSession s →
  xrSession s ≠ _lastXrSession s →
  ∀ o name,
    (o, name) ∈ sessionListeners (final (afterUpdate s))
    ↔ xrStandard src = false ∧ xrSession s = JSobject o
      ∧ name ∈ XRSESSION_EVENTS.
Proof.
  intros Hsrc Hinv Hne o name.
  destruct (afterUpdate_bookkeeping s) as (_ & _ & ->).
  rewrite decide_True by done. rewrite Hsrc. cbv zeta.
  assert (Hreg : ∀ x, x ∉ toggleEvents (_lastXrSession s) false
                            XRSESSION_EVENTS (sessionListeners s)).
  { intros [o' n'] Hin.
    apply toggleEvents_off_elem in Hin as [Hin Hno].
    apply Hno. by apply Hinv. }
  destruct (xrStandard src).
  - split; [by intros ?%Hreg|by intros [? _]].
  - split.
    + intros [?%Hreg|[? ?]]%toggleEvents_on_elem_inv; done.
    + intros (_ & -> & Hname). by apply toggleEvents_on_elem.
Qed.

(** X4, satisfiable: a source without a gamepad moves from session 3 to
    session 4. *)
Lemma X4_session_switch_witness :
  let s := set_props (Some (sampleSource None)) (JSobject 4) true
             (final (afterUpdate
                       (set_props (Some (sampleSource None)) (JSobject 3)
                                  true sampleFacade))) in
  (4%nat, "select") ∈ sessionListeners (final (afterUpdate s)) ∧
  (3%nat, "select") ∉ sessionListeners (final (afterUpdate s)).
Proof.
  intros s.
  assert (Hinv : onLastSession s).
  { apply (afterUpdate_keeps_onLastSession
             (set_props (Some (sampleSource None)) (JSobject 3) true
                        sampleFacade)).
    intros o name Hin. by apply not_elem_of_empty in Hin. }
  pose proof (X4_session_switch s (sampleSource None) eq_refl Hinv
                ltac:(discriminate)) as H.
  split.
  - apply H. split; [reflexivity|]. split; [reflexivity|].
    unfold XRSESSION_EVENTS. repeat constructor.
  - intros Hin. apply H in Hin as (_ & Heq & _). discriminate.
Defined.

(** ** Teardown *)

Lemma destructor_run scene s :
  destructor scene s =
  (set_sceneListeners
     (toggleEvents (JSobject scene) false SCENE_EVENTS (sceneListeners s))
     (set_sessionListeners
        (toggleEvents (xrSession s) false XRSESSION_EVENTS
                      (sessionListeners s)) s),
   [SuperDestructor], Some tt).
Proof. reflexivity. Qed.

(** X5.  The destructor of a facade in its scene, after any history since
    construction, provided [afterUpdate] has run since the session prop
    last changed: it returns, calls the superclass destructor, and leaves
    both listener registries empty, so that no session event and no scene
    event reaches a handler afterwards. *)
Theorem X5_teardown_unsubscribes_all
    (BUTTON_TRIGGER BUTTON_SQUEEZE : Z) hypot applyQuaternion shared this scene ins :
  let s := (run BUTTON_TRIGGER BUTTON_SQUEEZE hypot applyQuaternion ins
                (constructor shared this scene)).1 in
  xrSession s = _lastXrSession s →
  let o := destructor scene s in
  returned o = Some tt ∧
  effects o = [SuperDestructor] ∧
  sessionListeners (final o) = ∅ ∧
  sceneListeners (final o) = ∅ ∧
  (∀ x name,
      step BUTTON_TRIGGER BUTTON_SQUEEZE hypot applyQuaternion
           (InSessionEvent x name) (final o) = (final o, [])) ∧
  (∀ x e,
      step BUTTON_TRIGGER BUTTON_SQUEEZE hypot applyQuaternion
           (InSceneEvent x e) (final o) = (final o, [])).
Proof.
  intros s Hsync o.
  assert (Hinv : onLastSession s ∧ onScene scene s).
  { apply (run_invariant _ _ _ _ (λ x, onLastSession x ∧ onScene scene x));
      try (intros; assumption).
    - intros x [??]. split;
        [by apply afterUpdate_keeps_onLastSession
        |by apply afterUpdate_keeps_onScene].
    - split; [|apply constructor_onScene].
      intros x name Hin. by apply not_elem_of_empty in Hin. }
  destruct Hinv as [Hsess Hscene].
  assert (H1 : sessionListeners (final o) = ∅).
  { subst o. rewrite destructor_run. unfold final.
    cbn [fst snd sessionListeners sceneListeners set_sceneListeners
         set_sessionListeners].
    apply set_eq. intros [x name]. split; [|by intros ?%not_elem_of_empty].
    intros [Hin Hno]%toggleEvents_off_elem. exfalso. apply Hno.
    rewrite Hsync. by apply Hsess. }
  assert (H2 : sceneListeners (final o) = ∅).
  { subst o. rewrite destructor_run. unfold final.
    cbn [fst snd sessionListeners sceneListeners set_sceneListeners
         set_sessionListeners].
    apply set_eq. intros [x ty]. split; [|by intros ?%not_elem_of_empty].
    intros [Hin Hno]%toggleEvents_off_elem. exfalso. apply Hno.
    destruct (Hscene x ty Hin) as [-> ?]. done. }
  repeat split; try done.
  - intros x name. cbn [step]. rewrite H1.
    by rewrite decide_False by apply not_elem_of_empty.
  - intros x e. cbn [step]. rewrite H2.
    by rewrite decide_False by apply not_elem_of_empty.
Qed.

(** X5, satisfiable: a facade that subscribed to session 3 (no gamepad),
    saw a frame and a click of its own, and is then destroyed. *)
Lemma X5_teardown_unsubscribes_all_witness :
  let s := (run 0 1 hypot_sqrt applyQuaternion_three
              [InProps (Some (sampleSource None)) (JSobject 3) true; InUpdate;
               InFrame {| offsetReferenceSpace := Some 5%nat;
                          getPose := λ _ _, None; date_now := 1000 |};
               InSessionEvent 3 "select"]
              (constructor Defaults_at_load 7 8)).1 in
  (3%nat, "select") ∈ sessionListeners s ∧
  sessionListeners (final (destructor 8 s)) = ∅ ∧
  sceneListeners (final (destructor 8 s)) = ∅.
Proof.
  intros s. split; [vm_compute; reflexivity|].
  pose proof (X5_teardown_unsubscribes_all 0 1 hypot_sqrt applyQuaternion_three
                Defaults_at_load 7%nat 8%nat
                [InProps (Some (sampleSource None)) (JSobject 3) true; InUpdate;
                 InFrame {| offsetReferenceSpace := Some 5%nat;
                            getPose := λ _ _, None; date_now := 1000 |};
                 InSessionEvent 3 "select"]
                eq_refl) as (_ & _ & H1 & H2 & _).
  split; [exact H1|exact H2].
Defined.

(** ** The visual children *)

Lemma afterUpdate_children s src :
  xrInputSource s = Some src →
  children (final (afterUpdate s)) =
  [ (if negb (bool_decide (targetRayMode src = "screen")) && isPointing s
     then fillConfig "cursor" s <$> cursor s else None);
    (if bool_decide (targetRayMode src = "tracked-pointer") && isPointing s
     then fillConfig "targetRay" s <$> targetRay s else None);
    (if bool_decide (targetRayMode src = "tracked-pointer")
        && bool_decide (is_Some (gripPose s))
     then fillConfig "grip" s <$> grip s else None) ].
Proof.
  intros Hsrc. unfold afterUpdate, _isXrStandardGamepad, bind, get, modify,
    emit, deref, ret, final. simpl. rewrite Hsrc.
  destruct (decide (xrSession s ≠ _lastXrSession s)); simpl;
    [rewrite Hsrc; simpl; destruct (xrStandard src); simpl|]; reflexivity.
Qed.

(** X6.  The children [afterUpdate] configures, by targeting mode, for a
    facade that has its input source.  In mode 'screen' all three are off.
    In mode 'tracked-pointer' the cursor and the target ray are on exactly
    when [isPointing] holds and the grip is on exactly when a grip pose is
    present.  In any other mode ('gaze') only the cursor can be on, exactly
    when [isPointing] holds.  A child that is on is its configuration
    object with key, both poses, the intersection and the input source
    written into it; a configuration the parent set to [null] stays off. *)
Theorem X6_children_by_targeting_mode s src :
  xrInputSource s = Some src →
  let ch := children (final (afterUpdate s)) in
  let on (k : string) (c : option ChildConfig) : option ChildConfig :=
    (λ c, {| facade := facade c; key := Some k;
             cfg_targetRayPose := targetRayPose s;
             cfg_gripPose := gripPose s;
             cfg_rayIntersection := rayIntersection s;
             cfg_xrInputSource := Some src |}) <$> c in
  (targetRayMode src = "screen" → ch = [None; None; None]) ∧
  (targetRayMode src = "tracked-pointer" →
   ch = [ (if isPointing s then on "cursor" (cursor s) else None);
          (if isPointing s then on "targetRay" (targetRay s) else None);
          (if gripPose s is Some _ then on "grip" (grip s) else None) ]) ∧
  (targetRayMode src ≠ "screen" → targetRayMode src ≠ "tracked-pointer" →
   ch = [ (if isPointing s then on "cursor" (cursor s) else None);
          None; None ]).
Proof.
  intros Hsrc ch on. subst ch. rewrite (afterUpdate_children s src Hsrc).
  assert (Hon : ∀ k c, fillConfig k s <$> c = on k c).
  { intros k c. unfold on, fillConfig. by rewrite Hsrc. }
  rewrite !Hon. split; [|split].
  - intros ->. reflexivity.
  - intros ->. simpl. by destruct (gripPose s).
  - intros H1 H2. rewrite !bool_decide_eq_false_2 by done. reflexivity.
Qed.

(** X6, satisfiable: a tracked pointer that is pointing, before any pose
    was resolved: cursor and target ray on, grip off. *)
Lemma X6_children_by_targeting_mode_witness :
  let s := set_props (Some (sampleSource None)) (JSobject 3) true sampleFacade in
  (λ c, bool_decide (is_Some c)) <$> children (final (afterUpdate s))
  = [true; true; false].
Proof.
  intros s.
  pose proof (X6_children_by_targeting_mode s (sampleSource None) eq_refl)
    as (_ & Htracked & _).
  rewrite (Htracked eq_refl). reflexivity.
Defined.

(** X7.  [afterUpdate] is idempotent on a facade that has its input
    source: run again with nothing changed in between, it returns, calls
    the superclass update, and leaves every field and both registries
    exactly as the first run left them. *)
Theorem X7_afterUpdate_idempotent s src :
  xrInputSource s = Some src →
  afterUpdate (final (afterUpdate s))
  = (final (afterUpdate s), [SuperAfterUpdate], Some tt).
Proof.
  intros Hsrc.
  destruct s as [self0 xis xrSession0 xrRef tp gripPose0 ri cursor0 targetRay0
                 grip0 isPointing0 ch r0 _lastXrSession0 bp sl scl].
  simpl in Hsrc. subst xis.
  unfold afterUpdate, _isXrStandardGamepad, bind, get, modify, emit, deref,
    ret, final.
  cbn -[toggleEvents XRSESSION_EVENTS].
  destruct (decide (xrSession0 ≠ _lastXrSession0)) as [Hne|Heq];
    cbn -[toggleEvents XRSESSION_EVENTS].
  - destruct (xrStandard src); cbn -[toggleEvents XRSESSION_EVENTS];
      (rewrite decide_False by (intros H; by apply H));
      cbn -[toggleEvents XRSESSION_EVENTS];
      destruct (bool_decide (targetRayMode src = "screen")),
        (bool_decide (targetRayMode src = "tracked-pointer")), isPointing0,
        gripPose0, cursor0, targetRay0, grip0; reflexivity.
  - rewrite decide_False by done.
    cbn -[toggleEvents XRSESSION_EVENTS];
      destruct (bool_decide (targetRayMode src = "screen")),
        (bool_decide (targetRayMode src = "tracked-pointer")), isPointing0,
        gripPose0, cursor0, targetRay0, grip0; reflexivity.
Qed.

(** X7, satisfiable: a tracked pointer without a gamepad at its first
    session. *)
Lemma X7_afterUpdate_idempotent_witness :
  let s := set_props (Some (sampleSource None)) (JSobject 3) true sampleFacade in
  afterUpdate (final (afterUpdate s))
  = (final (afterUpdate s), [SuperAfterUpdate], Some tt).
Proof.
  intros s. apply (X7_afterUpdate_idempotent s (sampleSource None)).
  reflexivity.
Defined.

(** ** Scene ray events *)

(** The secondary event the table yields, when it yields one. *)
Lemma xrTargetEvent_Some (BUTTON_TRIGGER BUTTON_SQUEEZE : Z) e name :
  xrTargetEvent BUTTON_TRIGGER BUTTON_SQUEEZE e = Some name →
  name ∈ XR_TARGET_EVENT_NAMES ∧
  se_type e ∈ [mousedown; mouseup; click] ∧
  (se_button e = Some BUTTON_TRIGGER ∨ se_button e = Some BUTTON_SQUEEZE).
Proof.
  unfold xrTargetEvent, RAY_TARGET_EVENTS.
  destruct (se_button e) as [b|]; [|done]. simpl.
  rewrite lookup_insert. case_decide as Hs.
  - subst b. simpl. unfold XR_TARGET_EVENT_NAMES.
    destruct (se_type e); simpl; intros [= <-];
      (split; [|split; [|by right]]); repeat constructor.
  - rewrite lookup_insert. case_decide as Ht; [|by rewrite lookup_empty].
    subst b. simpl. unfold XR_TARGET_EVENT_NAMES.
    destruct (se_type e); simpl; intros [= <-];
      (split; [|split; [|by left]]); repeat constructor.
Qed.

(** Everything a scene ray event of the facade's own does to the world. *)
Lemma onSceneRayEvent_own_effects (BUTTON_TRIGGER BUTTON_SQUEEZE : Z) e s src :
  xrInputSource s = Some src →
  se_eventSource e = Some (self s) →
  returned (_onSceneRayEvent BUTTON_TRIGGER BUTTON_SQUEEZE e s) = Some tt ∧
  effects (_onSceneRayEvent BUTTON_TRIGGER BUTTON_SQUEEZE e s) =
    [SuperAfterUpdate]
    ++ match firstActuator src with
       | Some a =>
           if decide (se_type e = click) then [Pulse a 1 20]
           else if decide (se_type e = mouseover
                           ∧ se_target e ≠ se_currentTarget e)
                then [Pulse a 0.3 10]
                else []
       | None => []
       end
    ++ match xrTargetEvent BUTTON_TRIGGER BUTTON_SQUEEZE e with
       | Some name =>
           [DispatchEvent (se_target e)
              {| ev_name := name; ev_bubbles := true;
                 ev_eventSource := self s |}]
       | None => []
       end.
Proof.
  intros Hsrc Hown. unfold _onSceneRayEvent.
  rewrite effects_bind, returned_bind. cbn [get returned final effects fst snd].
  rewrite decide_True by done.
  rewrite effects_bind, returned_bind.
  cbn [modify returned final effects fst snd].
  rewrite effects_bind, returned_bind.
  destruct (afterUpdate_run (set_rayIntersection (se_intersection e) s) src Hsrc)
    as (s' & Hrun & _).
  rewrite Hrun. cbn [returned final effects fst snd].
  rewrite effects_bind, returned_bind.
  destruct (decide (se_type e = click)) as [Hclick|Hclick].
  - unfold bind, deref. rewrite Hsrc. cbn [ret].
    destruct (firstActuator src);
      destruct (xrTargetEvent BUTTON_TRIGGER BUTTON_SQUEEZE e); done.
  - destruct (decide (se_type e = mouseover
                      ∧ se_target e ≠ se_currentTarget e)) as [[Hov Hsc]|Hno].
    + rewrite (bool_decide_eq_true_2 _ Hov), (bool_decide_eq_false_2 _ Hsc).
      simpl. unfold bind, deref. rewrite Hsrc. cbn [ret].
      destruct (firstActuator src);
        destruct (xrTargetEvent BUTTON_TRIGGER BUTTON_SQUEEZE e); done.
    + assert (bool_decide (se_type e = mouseover)
              && negb (bool_decide (se_target e = se_currentTarget e)) = false)
        as ->.
      { destruct (decide (se_type e = mouseover)) as [Hov|Hov].
        - rewrite (bool_decide_eq_true_2 _ Hov). simpl.
          apply negb_false_iff, bool_decide_eq_true_2.
          destruct (decide (se_target e = se_currentTarget e)); [done|].
          exfalso. by apply Hno.
        - by rewrite (bool_decide_eq_false_2 _ Hov). }
      destruct (firstActuator src);
        destruct (xrTargetEvent BUTTON_TRIGGER BUTTON_SQUEEZE e); done.
Qed.

(** X8.  A scene ray event of the facade's own, on a facade that has its
    input source, returns and does three things in this order: the visual
    update; at most one haptic pulse on the gamepad's first actuator, of
    value 1 for 20ms on a click, of value 0.3 for 10ms on a mouseover whose
    target is not the scene itself, and none on any other event or when
    there is no gamepad, no actuator list or an empty one; at most one
    secondary event. *)
Theorem X8_scene_event_effects (BUTTON_TRIGGER BUTTON_SQUEEZE : Z) e s src :
  xrInputSource s = Some src →
  se_eventSource e = Some (self s) →
  let o := _onSceneRayEvent BUTTON_TRIGGER BUTTON_SQUEEZE e s in
  returned o = Some tt ∧
  pulsesOf (effects o) =
    match firstActuator src with
    | Some a =>
        if decide (se_type e = click) then [(a, 1, 20)%float]
        else if decide (se_type e = mouseover
                        ∧ se_target e ≠ se_currentTarget e)
             then [(a, 0.3, 10)%float]
             else []
    | None => []
    end ∧
  effects o =
    [SuperAfterUpdate]
    ++ ((λ p, Pulse p.1.1 p.1.2 p.2) <$> pulsesOf (effects o))
    ++ ((λ d, DispatchEvent d.1 d.2) <$> dispatchesOf (effects o)).
Proof.
  intros Hsrc Hown o.
  destruct (onSceneRayEvent_own_effects BUTTON_TRIGGER BUTTON_SQUEEZE e s src
              Hsrc Hown) as [Hret Heff].
  fold o in Hret, Heff. split; [done|]. rewrite Heff.
  destruct (firstActuator src) as [a|];
    [destruct (decide (se_type e = click));
       [|destruct (decide (se_type e = mouseover
                           ∧ se_target e ≠ se_currentTarget e))]|];
    destruct (xrTargetEvent BUTTON_TRIGGER BUTTON_SQUEEZE e); done.
Qed.

(** X8, satisfiable: a click of facade 7 on target 20, with an actuator 30
    on the gamepad. *)
Lemma X8_scene_event_effects_witness :
  let g := {| buttons := []; axes := []; mapping := "xr-standard";
              hapticActuators := Some [30%nat; 31%nat] |} in
  let s := set_props (Some (sampleSource (Some g))) (JSobject 3) true
                     sampleFacade in
  let e := {| se_type := click; se_target := 20; se_currentTarget := 8;
              se_eventSource := Some 7%nat; se_intersection := Some 41%nat;
              se_button := Some 0 |} in
  pulsesOf (effects (_onSceneRayEvent 0 1 e s)) = [(30%nat, 1, 20)%float].
Proof.
  intros g s e.
  pose proof (X8_scene_event_effects 0 1 e s (sampleSource (Some g))
                eq_refl eq_refl) as (_ & Hp & _).
  exact Hp.
Defined.

(** Without an input source the pending [afterUpdate] throws before any
    pulse or dispatch. *)
Lemma onSceneRayEvent_own_no_source (BUTTON_TRIGGER BUTTON_SQUEEZE : Z) e s :
  xrInputSource s = None →
  se_eventSource e = Some (self s) →
  returned (_onSceneRayEvent BUTTON_TRIGGER BUTTON_SQUEEZE e s) = None ∧
  effects (_onSceneRayEvent BUTTON_TRIGGER BUTTON_SQUEEZE e s) = [].
Proof.
  intros Hsrc Hown. unfold _onSceneRayEvent.
  rewrite effects_bind, returned_bind. cbn [get returned final effects fst snd].
  rewrite decide_True by done.
  rewrite effects_bind, returned_bind.
  cbn [modify returned final effects fst snd].
  rewrite effects_bind, returned_bind.
  assert (Hthrow : returned (afterUpdate
                               (set_rayIntersection (se_intersection e) s))
                   = None
                   ∧ effects (afterUpdate
                                (set_rayIntersection (se_intersection e) s))
                     = []).
  { unfold afterUpdate, _isXrStandardGamepad, bind, get, modify, deref, throw,
      returned, effects. simpl. rewrite Hsrc.
    case_decide; simpl; [by rewrite Hsrc|done]. }
  destruct Hthrow as [-> ->]. done.
Qed.

(** X9.  What [_onSceneRayEvent] never dispatches, whatever the two button
    ids are and whether or not the facade has its input source: it
    dispatches at most one event; only for an event of its own; only for
    mousedown, mouseup or click with the TRIGGER or the SQUEEZE button;
    only to the event's target; and the event it dispatches bubbles,
    carries this facade as [eventSource] and has one of the six xr names. *)
Theorem X9_dispatch_only_table_events
    (BUTTON_TRIGGER BUTTON_SQUEEZE : Z) e s t ev :
  (t, ev) ∈ dispatchesOf
              (effects (_onSceneRayEvent BUTTON_TRIGGER BUTTON_SQUEEZE e s)) →
  dispatchesOf (effects (_onSceneRayEvent BUTTON_TRIGGER BUTTON_SQUEEZE e s))
    = [(t, ev)] ∧
  se_eventSource e = Some (self s) ∧
  se_type e ∈ [mousedown; mouseup; click] ∧
  (se_button e = Some BUTTON_TRIGGER ∨ se_button e = Some BUTTON_SQUEEZE) ∧
  t = se_target e ∧
  ev_bubbles ev = true ∧
  ev_eventSource ev = self s ∧
  ev_name ev ∈ XR_TARGET_EVENT_NAMES.
Proof.
  destruct (decide (se_eventSource e = Some (self s))) as [Hown|Hother];
    [|rewrite onSceneRayEvent_other by done; by intros ?%elem_of_nil].
  destruct (xrInputSource s) as [src|] eqn:Hsrc.
  - destruct (onSceneRayEvent_own_dispatches BUTTON_TRIGGER BUTTON_SQUEEZE
                e s src Hsrc Hown) as [_ ->].
    destruct (xrTargetEvent BUTTON_TRIGGER BUTTON_SQUEEZE e) as [name|] eqn:Hev;
      [|by intros ?%elem_of_nil].
    intros [= -> ->]%list_elem_of_singleton.
    apply xrTargetEvent_Some in Hev as (? & ? & ?). done.
  - destruct (onSceneRayEvent_own_no_source BUTTON_TRIGGER BUTTON_SQUEEZE
                e s Hsrc Hown) as [_ ->].
    by intros ?%elem_of_nil.
Qed.

(** X9, satisfiable: the facade's own mouseup with the trigger button. *)
Lemma X9_dispatch_only_table_events_witness :
  let s := set_props (Some (sampleSource None)) (JSobject 3) true sampleFacade in
  let e := {| se_type := mouseup; se_target := 20; se_currentTarget := 8;
              se_eventSource := Some 7%nat; se_intersection := None;
              se_button := Some 0 |} in
  dispatchesOf (effects (_onSceneRayEvent 0 1 e s))
  = [(20%nat, {| ev_name := "xrselectend"; ev_bubbles := true;
                 ev_eventSource := 7 |})].
Proof.
  intros s e.
  apply (X9_dispatch_only_table_events 0 1 e s 20%nat
           {| ev_name := "xrselectend"; ev_bubbles := true;
              ev_eventSource := 7 |}).
  vm_compute. constructor.
Defined.

(** ** A facade without its input source *)

(** X10.  While the required [xrInputSource] prop is still [null], the
    methods that read it throw a [TypeError] and notify nobody.  A frame
    throws and leaves the facade exactly as it was.  [afterUpdate] throws
    after remembering the session and removing the previous session's
    listeners, and adds none.  A scene ray event of the facade's own stores
    the intersection and then throws, before any pulse or dispatch.  The
    session event handler does not read the prop and still emits its
    action. *)
Theorem X10_missing_input_source
    (BUTTON_TRIGGER BUTTON_SQUEEZE : Z) hypot applyQuaternion s :
  xrInputSource s = None →
  (∀ env, _onXrFrame hypot applyQuaternion env s = (s, [], None)) ∧
  (returned (afterUpdate s) = None ∧
   effects (afterUpdate s) = [] ∧
   _lastXrSession (final (afterUpdate s)) = xrSession s ∧
   sessionListeners (final (afterUpdate s)) ⊆ sessionListeners s ∧
   children (final (afterUpdate s)) = children s) ∧
  (∀ e, se_eventSource e = Some (self s) →
        let o := _onSceneRayEvent BUTTON_TRIGGER BUTTON_SQUEEZE e s in
        returned o = None ∧ effects o = [] ∧
        rayIntersection (final o) = se_intersection e) ∧
  (∀ name,
      returned (_onSessionEvent BUTTON_TRIGGER BUTTON_SQUEEZE name s)
      = Some tt ∧
      length (actionsOf
                (effects (_onSessionEvent BUTTON_TRIGGER BUTTON_SQUEEZE
                                          name s))) = 1%nat).
Proof.
  intros Hsrc. split; [|split; [|split]].
  - intros env.
    unfold _onXrFrame, resolvePoses, _isXrStandardGamepad, bind, get, deref,
      throw, ret.
    destruct (offsetReferenceSpace env); simpl; rewrite Hsrc; reflexivity.
  - destruct (afterUpdate_bookkeeping s) as (Hlast & _ & Hreg).
    split; [|split; [|split; [done|split]]].
    + unfold afterUpdate, _isXrStandardGamepad, bind, get, modify, deref,
        throw, returned. simpl. rewrite Hsrc.
      case_decide; simpl; [by rewrite Hsrc|done].
    + unfold afterUpdate, _isXrStandardGamepad, bind, get, modify, deref,
        throw, effects. simpl. rewrite Hsrc.
      case_decide; simpl; [by rewrite Hsrc|done].
    + rewrite Hreg, Hsrc. case_decide; [|done].
      apply toggleEvents_off_subseteq.
    + unfold afterUpdate, _isXrStandardGamepad, bind, get, modify, deref,
        throw, final. simpl. rewrite Hsrc.
      case_decide; simpl; [by rewrite Hsrc|done].
  - intros e Hown o.
    destruct (onSceneRayEvent_own_no_source BUTTON_TRIGGER BUTTON_SQUEEZE
                e s Hsrc Hown) as [Hret Heff].
    split; [done|split; [done|]].
    by apply onSceneRayEvent_own_intersection.
  - intros name. by rewrite onSessionEvent_run.
Qed.

(** X10, satisfiable: the facade as constructed. *)
Lemma X10_missing_input_source_witness :
  let env := {| offsetReferenceSpace := Some 5%nat;
                getPose := λ _ _, None; date_now := 1000 |} in
  _onXrFrame hypot_sqrt applyQuaternion_three env sampleFacade
  = (sampleFacade, [], None).
Proof.
  intros env.
  apply (X10_missing_input_source 0 1 hypot_sqrt applyQuaternion_three
           sampleFacade).
  reflexivity.
Defined.

(** ** More on one gamepad poll *)

Lemma buttonActions_ray p now r i pr cur a :
  a ∈ buttonActions p now r i pr cur → ray a = r.
Proof.
  unfold buttonActions. intros Ha.
  repeat match type of Ha with
         | context [if ?c then _ else _] => destruct c
         end;
    repeat match goal with
           | H : _ ∈ _ :: _ |- _ => apply elem_of_cons in H as [->|H]
           | H : _ ∈ [] |- _ => by apply elem_of_nil in H
           end; done.
Qed.

Lemma buttonActions_length p now r i pr cur :
  (length (buttonActions p now r i pr cur) ≤ 2)%nat.
Proof.
  unfold buttonActions.
  repeat match goal with
         | |- context [if ?c then _ else _] => destruct c
         end; simpl; lia.
Qed.

Lemma loopActions_imap p now r k bs pt :
  loopActions p now r k bs pt =
  mjoin (imap (λ i b, buttonActions p now r (k + i) (pressed b)
                                    (arr_get pt (k + i))) bs).
Proof.
  revert k. induction bs as [|b bs IH]; intros k; [done|].
  cbn [loopActions]. rewrite imap_cons. cbn [mjoin list_join].
  rewrite Nat.add_0_r. f_equal. rewrite IH. f_equal.
  apply imap_ext. intros i x _. simpl. by rewrite Nat.add_succ_r.
Qed.

Lemma loopActions_ray p now r k bs pt a :
  a ∈ loopActions p now r k bs pt → ray a = r.
Proof.
  revert k. induction bs as [|b bs IH]; intros k; simpl.
  - by intros ?%elem_of_nil.
  - intros [Ha|Ha]%elem_of_app; [by eapply buttonActions_ray|by eapply IH].
Qed.

Lemma loopActions_length p now r k bs pt :
  (length (loopActions p now r k bs pt) ≤ 2 * length bs)%nat.
Proof.
  revert k. induction bs as [|b bs IH]; intros k; simpl; [lia|].
  rewrite length_app. specialize (IH (S k)).
  pose proof (buttonActions_length p now r k (pressed b) (arr_get pt k)). lia.
Qed.

Lemma loopActions_not_pointing now r k bs pt :
  loopActions false now r k bs pt = [].
Proof.
  revert k. induction bs as [|b bs IH]; intros k; simpl; [done|].
  rewrite IH. unfold buttonActions.
  by destruct (negb (Bool.eqb (pressed b) (truthy (arr_get pt k)))).
Qed.

Lemma wheelActions_ray hypot p r axs i a :
  a ∈ wheelActions hypot p r axs i → ray a = r.
Proof.
  unfold wheelActions. intros Ha.
  repeat match type of Ha with
         | context [if ?c then _ else _] => destruct c
         end;
    repeat match goal with
           | H : _ ∈ _ :: _ |- _ => apply elem_of_cons in H as [->|H]
           | H : _ ∈ [] |- _ => by apply elem_of_nil in H
           end; done.
Qed.

Lemma trackAxes_ray hypot p r axs a :
  a ∈ trackAxes hypot p r axs → ray a = r.
Proof.
  rewrite trackAxes_pairs. intros Ha.
  apply list_elem_of_In, in_flat_map in Ha as (j & _ & Ha).
  apply list_elem_of_In in Ha. by eapply wheelActions_ray.
Qed.

Lemma trackAxes_length hypot p r axs :
  (length (trackAxes hypot p r axs) ≤ Nat.div2 (S (length axs)))%nat.
Proof.
  rewrite trackAxes_pairs.
  assert (Hone : ∀ j, (length (wheelActions hypot p r axs j) ≤ 1)%nat).
  { intros j. unfold wheelActions.
    repeat match goal with
           | |- context [if ?c then _ else _] => destruct c
           end; simpl; lia. }
  assert (Hall : ∀ n k,
            (length (flat_map (λ j, wheelActions hypot p r axs (2 * j))
                              (seq k n)) ≤ n)%nat).
  { induction n as [|n IH]; intros k; cbn [seq flat_map]; [simpl; lia|].
    rewrite length_app. specialize (IH (S k)).
    specialize (Hone (2 * k)%nat). lia. }
  apply Hall.
Qed.

Lemma trackAxes_not_pointing hypot r axs : trackAxes hypot false r axs = [].
Proof.
  rewrite trackAxes_pairs.
  assert (Hall : ∀ n k,
            flat_map (λ j, wheelActions hypot false r axs (2 * j)) (seq k n)
            = []).
  { induction n as [|n IH]; intros k; cbn [seq flat_map]; [done|].
    rewrite IH, app_nil_r. unfold wheelActions.
    by destruct (PrimFloat.ltb _ _). }
  apply Hall.
Qed.

Lemma poll_actions hypot now g s :
  actionsOf (effects (_trackGamepadState hypot now g s)) =
  loopActions (isPointing s) now (_ray s) 0 (buttons g)
              (default [] (_buttonPresses s))
  ++ trackAxes hypot (isPointing s) (_ray s) (axes g).
Proof.
  rewrite trackGamepadState_run. unfold effects. simpl.
  by rewrite actionsOf_app, !actionsOf_actions, trackButtons_actions.
Qed.

Lemma poll_actions_ray hypot now g s a :
  a ∈ actionsOf (effects (_trackGamepadState hypot now g s)) → ray a = _ray s.
Proof.
  rewrite poll_actions.
  intros [Ha|Ha]%elem_of_app;
    [by eapply loopActions_ray|by eapply trackAxes_ray].
Qed.

(** X11.  One poll, taken apart.  [_trackGamepadState] notifies nothing
    but pointer actions.  They are: for each button in index order, what
    that button alone calls for, given its [pressed] flag and its own
    stored time as it was before the poll (the writes and the length
    assignments of earlier iterations do not reach a later button);
    followed by what each axis pair calls for, in pair order.  Every
    action carries the facade's current ray. *)
Theorem X11_poll_is_per_button_then_per_pair hypot now g s :
  let o := _trackGamepadState hypot now g s in
  effects o = RayPointerAction <$> actionsOf (effects o) ∧
  actionsOf (effects o) =
    mjoin (imap (λ i b, buttonActions (isPointing s) now (_ray s) i
                                      (pressed b) (storedTime i s))
                (buttons g))
    ++ flat_map (λ k, wheelActions hypot (isPointing s) (_ray s) (axes g)
                                   (2 * k))
                (seq 0 (Nat.div2 (S (length (axes g))))) ∧
  (∀ a, a ∈ actionsOf (effects o) → ray a = _ray s) ∧
  returned o = Some tt.
Proof.
  intros o. subst o. split; [|split; [|split]].
  - rewrite poll_actions. rewrite trackGamepadState_run. unfold effects.
    cbn [fst snd]. by rewrite fmap_app, trackButtons_actions.
  - rewrite poll_actions, loopActions_imap, trackAxes_pairs. done.
  - intros a. rewrite poll_actions.
    intros [Ha|Ha]%elem_of_app;
      [by eapply loopActions_ray|by eapply trackAxes_ray].
  - by rewrite trackGamepadState_run.
Qed.

(** X12.  With [isPointing] false a poll notifies nothing at all, neither
    button actions nor wheel actions, and still records the presses and
    releases it sees. *)
Theorem X12_poll_not_pointing_is_silent hypot now g s :
  isPointing s = false →
  effects (_trackGamepadState hypot now g s) = [] ∧
  (∀ i b, buttons g !! i = Some b →
          storedTime i (final (_trackGamepadState hypot now g s)) =
          if Bool.eqb (pressed b) (truthy (storedTime i s))
          then storedTime i s
          else if pressed b then PTtime now else PTnull).
Proof.
  intros Hp. split.
  - rewrite trackGamepadState_run. unfold effects. cbn [fst snd].
    rewrite trackButtons_actions, Hp.
    by rewrite loopActions_not_pointing, trackAxes_not_pointing.
  - intros i b Hb.
    rewrite (poll_storedTime _ _ _ _ _ (pressed b))
      by (unfold pressedAt; by rewrite Hb).
    unfold nextTime. by destruct (Bool.eqb _ _).
Qed.

(** X12, satisfiable: a press and a full axis deflection sampled while
    pointing is off. *)
Lemma X12_poll_not_pointing_is_silent_witness :
  let s := setPointing false sampleFacade in
  let o := _trackGamepadState hypot_sqrt 1000
             (sampleGamepad [true] [1; 1]%float) s in
  effects o = [] ∧ storedTime 0 (final o) = PTtime 1000.
Proof.
  intros s o.
  destruct (X12_poll_not_pointing_is_silent hypot_sqrt 1000
              (sampleGamepad [true] [1; 1]%float) s eq_refl) as [H1 H2].
  split; [exact H1|]. exact (H2 0%nat {| pressed := true |} eq_refl).
Defined.

(** X13.  The shape of [_buttonPresses] after a poll.  If the gamepad has
    at least one button, the array is exactly as long as the button array
    and reads [undefined] at every index from the button count on, so that
    what was stored for a button that is gone is dropped and a button
    that appears starts as released.  If the gamepad has no button the
    array is left as it was (created empty if it did not exist). *)
Theorem X13_stored_array_shape hypot now g s :
  let s' := final (_trackGamepadState hypot now g s) in
  (buttons g ≠ [] →
   length (default [] (_buttonPresses s')) = length (buttons g) ∧
   ∀ j, (length (buttons g) ≤ j)%nat → storedTime j s' = PTundefined) ∧
  (buttons g = [] →
   _buttonPresses s' = Some (default [] (_buttonPresses s))).
Proof.
  intros s'. subst s'. split.
  - intros Hne. pose proof (poll_length hypot now g s Hne) as Hlen.
    split; [done|]. intros j Hj. unfold storedTime, arr_get.
    by rewrite lookup_ge_None_2 by lia.
  - intros Hnil. rewrite trackGamepadState_run. unfold final. simpl.
    by rewrite Hnil.
Qed.

(** X13, satisfiable: three tracked buttons, then a gamepad with one. *)
Lemma X13_stored_array_shape_witness :
  let s1 := final (_trackGamepadState hypot_sqrt 1000
                     (sampleGamepad [true; true; true] []) sampleFacade) in
  let s2 := final (_trackGamepadState hypot_sqrt 1016
                     (sampleGamepad [true] []) s1) in
  storedTime 2 s1 = PTtime 1000 ∧
  length (default [] (_buttonPresses s2)) = 1%nat ∧
  storedTime 2 s2 = PTundefined.
Proof.
  intros s1 s2. split; [reflexivity|].
  destruct (X13_stored_array_shape hypot_sqrt 1016 (sampleGamepad [true] []) s1)
    as [H _].
  destruct (H ltac:(discriminate)) as [Hlen Hundef].
  split; [exact Hlen|]. apply Hundef. simpl. lia.
Defined.

Lemma arr_eq (l1 l2 : list PressedTime) :
  length l1 = length l2 →
  (∀ i, (i < length l1)%nat → arr_get l1 i = arr_get l2 i) →
  l1 = l2.
Proof.
  intros Hlen Hget. apply list_eq. intros i.
  destruct (decide (i < length l1)%nat) as [Hi|Hi].
  - specialize (Hget i Hi). unfold arr_get in Hget.
    destruct (lookup_lt_is_Some_2 l1 i Hi) as [x Hx].
    destruct (lookup_lt_is_Some_2 l2 i ltac:(lia)) as [y Hy].
    rewrite Hx, Hy in *. simpl in Hget. by subst.
  - by rewrite !lookup_ge_None_2 by lia.
Qed.

(** A poll of a sample that agrees with the stored state changes nothing
    and calls for no button action. *)
Lemma trackButtons_stable p now r bs pt :
  (bs ≠ [] → length pt = length bs) →
  (∀ i b, bs !! i = Some b → truthy (arr_get pt i) = pressed b) →
  trackButtons p now r bs pt = ([], pt).
Proof.
  intros Hlen Hsame.
  destruct bs as [|b0 bs0] eqn:Hbs; [done|]. rewrite <- Hbs in *.
  assert (Hne : bs ≠ []) by (rewrite Hbs; done).
  specialize (Hlen Hne).
  rewrite (surjective_pairing (trackButtons p now r bs pt)). f_equal.
  - rewrite trackButtons_actions, loopActions_imap.
    assert (Hnil : imap (λ i b, buttonActions p now r (0 + i) (pressed b)
                                              (arr_get pt (0 + i))) bs
                   = imap (λ _ _, []) bs).
    { apply imap_ext. intros i b Hb. simpl. unfold buttonActions.
      rewrite (Hsame i b Hb). by rewrite Bool.eqb_reflx. }
    rewrite Hnil. clear. generalize 0%nat.
    induction bs as [|b bs IH]; intros k; [done|].
    rewrite imap_cons. simpl. apply (IH 0%nat).
  - apply arr_eq.
    + rewrite trackButtons_length by done. lia.
    + intros i Hi. rewrite trackButtons_length in Hi by done.
      destruct (lookup_lt_is_Some_2 bs i Hi) as [b Hb].
      rewrite (trackButtons_get _ _ _ _ _ _ b Hb).
      unfold nextTime. rewrite (Hsame i b Hb). by rewrite Bool.eqb_reflx.
Qed.

(** X14.  Polling is stable: after a poll at a nonzero clock, a second
    poll that finds the same button array (whatever the clock, the axes
    and [isPointing] then are) calls for no button action, so every action
    it emits is a wheel action, and leaves [_buttonPresses] as the first
    poll left it. *)
Theorem X14_repoll_same_buttons_is_stable hypot s0 p1 now1 g1 p2 now2 g2 :
  now1 ≠ 0 →
  buttons g2 = buttons g1 →
  let s1 := final (pollWith hypot p1 now1 g1 s0) in
  let o := pollWith hypot p2 now2 g2 s1 in
  _buttonPresses (final o) = _buttonPresses s1 ∧
  actionsOf (effects o) = trackAxes hypot p2 (_ray s0) (axes g2).
Proof.
  intros Hnow Hsame s1 o.
  assert (Hs1 : _buttonPresses s1
                = Some (trackButtons p1 now1 (_ray s0) (buttons g1)
                                     (default [] (_buttonPresses s0))).2).
  { subst s1. unfold pollWith. by rewrite trackGamepadState_run. }
  assert (Hstable :
            trackButtons p2 now2 (_ray s0) (buttons g2)
              (trackButtons p1 now1 (_ray s0) (buttons g1)
                            (default [] (_buttonPresses s0))).2
            = ([], (trackButtons p1 now1 (_ray s0) (buttons g1)
                                 (default [] (_buttonPresses s0))).2)).
  { apply trackButtons_stable; rewrite Hsame.
    - intros Hne. by apply trackButtons_length.
    - intros i b Hb. rewrite (trackButtons_get _ _ _ _ _ _ b Hb).
      unfold nextTime.
      destruct (Bool.eqb (pressed b)
                         (truthy (arr_get (default [] (_buttonPresses s0)) i)))
        eqn:E; simpl.
      + symmetry. by apply Bool.eqb_prop.
      + destruct (pressed b); simpl; [|done].
        destruct (now1 =? 0) eqn:E0; [lia|done]. }
  assert (Hray : _ray s1 = _ray s0).
  { subst s1. unfold pollWith. by rewrite trackGamepadState_run. }
  subst o. unfold pollWith. rewrite trackGamepadState_run.
  unfold final, effects. cbn [fst snd].
  change (_buttonPresses (setPointing p2 s1)) with (_buttonPresses s1).
  change (_ray (setPointing p2 s1)) with (_ray s1).
  change (isPointing (setPointing p2 s1)) with p2.
  rewrite Hs1, Hray. cbn [default from_option id]. rewrite Hstable.
  split; [done|].
  cbn [fst snd]. by rewrite actionsOf_app, !actionsOf_actions.
Qed.

(** X14, satisfiable: button 0 held across two polls. *)
Lemma X14_repoll_same_buttons_is_stable_witness :
  let s1 := final (pollWith hypot_sqrt true 1000
                     (sampleGamepad [true; false] []) sampleFacade) in
  let o := pollWith hypot_sqrt true 1016 (sampleGamepad [true; false] []) s1 in
  _buttonPresses (final o) = _buttonPresses s1 ∧
  actionsOf (effects o) = [].
Proof.
  exact (X14_repoll_same_buttons_is_stable hypot_sqrt sampleFacade true 1000
           (sampleGamepad [true; false] []) true 1016
           (sampleGamepad [true; false] []) ltac:(lia) eq_refl).
Defined.

(** X15.  A poll emits at most two actions per button (the release's
    mouseup and click) and at most one per axis pair. *)
Theorem X15_poll_emission_bound hypot now g s :
  (length (actionsOf (effects (_trackGamepadState hypot now g s)))
   ≤ 2 * length (buttons g) + Nat.div2 (S (length (axes g))))%nat.
Proof.
  rewrite poll_actions, length_app.
  pose proof (loopActions_length (isPointing s) now (_ray s) 0 (buttons g)
                (default [] (_buttonPresses s))).
  pose proof (trackAxes_length hypot (isPointing s) (_ray s) (axes g)).
  lia.
Qed.

(** ** One frame, in order *)

Lemma isXrStandardGamepad_run s src :
  xrInputSource s = Some src →
  _isXrStandardGamepad s = (s, [], Some (xrStandard src)).
Proof.
  intros Hsrc. unfold _isXrStandardGamepad, bind, get, deref, ret. simpl.
  by rewrite Hsrc.
Qed.

Lemma resolvePoses_run aq env s src :
  xrInputSource s = Some src →
  let moved :=
    match ref ← offsetReferenceSpace env;
          getPose env (targetRaySpace src) ref with
    | Some p =>
        if isPointing s
        then Some {| origin := position p;
                     direction := aq (0, 0, (-1))%float (orientation p) |}
        else None
    | None => None
    end in
  ∃ s1,
    resolvePoses aq env s
    = (s1, RayPointerMotion <$> option_list moved, Some tt) ∧
    _ray s1 = default (_ray s) moved ∧
    isPointing s1 = isPointing s ∧
    xrInputSource s1 = xrInputSource s ∧
    _buttonPresses s1 = _buttonPresses s.
Proof.
  intros Hsrc moved. subst moved.
  unfold resolvePoses, bind, get, modify, emit, deref, ret. simpl.
  destruct (offsetReferenceSpace env) as [ref|]; simpl;
    [|eexists; (split; [reflexivity|]); repeat split; done].
  rewrite Hsrc. simpl.
  destruct (getPose env (targetRaySpace src) ref) as [p|]; simpl;
    [destruct (isPointing s) eqn:Hp; simpl|];
    eexists; (split; [reflexivity|]); repeat split; done.
Qed.

(** X16.  What a frame does, in order, on a facade that has its input
    source.  If a target-ray pose is resolved and [isPointing] holds, the
    ray is set from the pose (origin at its position, direction the
    rotated (0, 0, -1)) and notified first as the pointer motion;
    otherwise the ray stays and no motion is notified.  Then, only if the
    gamepad is standard-mapped, the gamepad is polled on the facade as the
    pose update left it, so that every action of the frame carries the ray
    of this frame; with any other gamepad, or none, the frame emits no
    action and leaves the button state alone.  The visual update comes
    last. *)
Theorem X16_frame_in_order hypot applyQuaternion env s src :
  xrInputSource s = Some src →
  let o := _onXrFrame hypot applyQuaternion env s in
  let moved :=
    match ref ← offsetReferenceSpace env;
          getPose env (targetRaySpace src) ref with
    | Some p =>
        if isPointing s
        then Some {| origin := position p;
                     direction := applyQuaternion (0, 0, (-1))%float
                                                  (orientation p) |}
        else None
    | None => None
    end in
  _ray (final o) = default (_ray s) moved ∧
  effects o = (RayPointerMotion <$> option_list moved)
              ++ (RayPointerAction <$> actionsOf (effects o))
              ++ [SuperAfterUpdate] ∧
  (∀ a, a ∈ actionsOf (effects o) → ray a = _ray (final o)) ∧
  (xrStandard src = false →
   actionsOf (effects o) = [] ∧ _buttonPresses (final o) = _buttonPresses s) ∧
  (∀ g, gamepad src = Some g → xrStandard src = true →
        actionsOf (effects o) =
        actionsOf (effects (_trackGamepadState hypot (date_now env) g
                              (final (resolvePoses applyQuaternion env s))))).
Proof.
  intros Hsrc o moved.
  destruct (resolvePoses_run applyQuaternion env s src Hsrc)
    as (s1 & Hres & Hray1 & Hp1 & Hsrc1 & Hbp1).
  fold moved in Hres, Hray1. rewrite Hsrc in Hsrc1.
  assert (Hmot : actionsOf (RayPointerMotion <$> option_list moved) = [])
    by (by destruct moved).
  assert (Ho : ∃ acts s2,
             effects o = (RayPointerMotion <$> option_list moved)
                         ++ (RayPointerAction <$> acts)
                         ++ [SuperAfterUpdate] ∧
             _ray (final o) = _ray s1 ∧
             _buttonPresses (final o) = _buttonPresses s2 ∧
             (xrStandard src = false → acts = [] ∧ s2 = s1) ∧
             (∀ g, gamepad src = Some g → xrStandard src = true →
                   acts = actionsOf (effects (_trackGamepadState hypot
                                                (date_now env) g s1)))).
  { subst o. unfold _onXrFrame.
    rewrite effects_bind, final_bind. cbn [get returned final effects fst snd].
    rewrite effects_bind, final_bind, Hres.
    cbn [returned final effects fst snd].
    rewrite effects_bind, final_bind, (isXrStandardGamepad_run s1 src Hsrc1).
    cbn [returned final effects fst snd].
    rewrite effects_bind, final_bind.
    destruct (xrStandard src) eqn:Hstd.
    - unfold xrStandard in Hstd.
      destruct (gamepad src) as [g|] eqn:Hg; [|done].
      exists (actionsOf (effects (_trackGamepadState hypot (date_now env) g s1))),
        (final (_trackGamepadState hypot (date_now env) g s1)).
      assert (Hin : (src0 <- deref (xrInputSource s);;
                     g0 <- deref (gamepad src0);;
                     _trackGamepadState hypot (date_now env) g0) s1
                    = _trackGamepadState hypot (date_now env) g s1).
      { unfold bind at 1. unfold deref at 1. rewrite Hsrc. cbn [ret].
        unfold bind at 1. unfold deref at 1. rewrite Hg. cbn [ret].
        rewrite trackGamepadState_run. cbn. done. }
      rewrite Hin. rewrite !trackGamepadState_run.
      cbn [returned final effects fst snd].
      destruct (afterUpdate_run
                  (set__buttonPresses
                     (Some (trackButtons (isPointing s1) (date_now env)
                              (_ray s1) (buttons g)
                              (default [] (_buttonPresses s1))).2) s1)
                  src Hsrc1)
        as (s3 & Hupd & _ & _ & _ & _ & _ & _ & _ & Hray3 & Hbp3 & _).
      rewrite Hupd. cbn [returned final effects fst snd].
      split; [|split; [done|split; [done|split; [done|]]]].
      + rewrite actionsOf_app, !actionsOf_actions, fmap_app.
        by rewrite <- !app_assoc.
      + intros g' [= <-] _. by rewrite trackGamepadState_run.
    - exists [], s1.
      cbn [ret returned final effects fst snd].
      destruct (afterUpdate_run s1 src Hsrc1)
        as (s3 & Hupd & _ & _ & _ & _ & _ & _ & _ & Hray3 & Hbp3 & _).
      rewrite Hupd. cbn [returned final effects fst snd].
      split; [done|]. split; [done|]. split; [done|]. split; [done|].
      intros g _ [=]. }
  destruct Ho as (acts & s2 & Heff & Hray & Hbp & Hnone & Hstd).
  assert (Hacts : actionsOf (effects o) = acts).
  { rewrite Heff, !actionsOf_app, Hmot, actionsOf_actions. simpl.
    by rewrite app_nil_r. }
  rewrite Hacts.
  split; [congruence|]. split; [done|]. split; [|split].
  - intros a Ha. rewrite Hray.
    destruct (xrStandard src) eqn:Hs.
    + unfold xrStandard in Hs. destruct (gamepad src) as [g|] eqn:Hg; [|done].
      rewrite (Hstd g eq_refl eq_refl) in Ha.
      by apply poll_actions_ray in Ha.
    + destruct (Hnone eq_refl) as [-> _]. by apply elem_of_nil in Ha.
  - intros Hs. destruct (Hnone Hs) as [-> ->]. split; [done|congruence].
  - intros g Hg Hs. rewrite (Hstd g Hg Hs).
    by rewrite Hres.
Qed.

(** X16, satisfiable: a pointing tracked pointer whose target-ray pose
    resolves at position (1, 2, 3) with the identity orientation, and whose
    standard gamepad has its trigger pressed: the motion, then the
    mousedown carrying the new ray, then the visual update. *)
Lemma X16_frame_in_order_witness :
  let s := set_props (Some (sampleSource (Some (sampleGamepad [true] []))))
                     (JSobject 3) true sampleFacade in
  let p := {| position := (1, 2, 3)%float;
              orientation := (0, 0, 0, 1)%float |} in
  let env := {| offsetReferenceSpace := Some 5%nat;
                getPose := λ space _, if decide (space = 1%nat) then Some p
                                      else None;
                date_now := 1000 |} in
  let o := _onXrFrame hypot_sqrt applyQuaternion_three env s in
  let r := {| origin := (1, 2, 3)%float; direction := (0, 0, (-1))%float |} in
  _ray (final o) = r ∧
  effects o = [RayPointerMotion r;
               RayPointerAction (buttonAction r mousedown 0);
               SuperAfterUpdate].
Proof.
  intros s p env o r.
  destruct (X16_frame_in_order hypot_sqrt applyQuaternion_three env s
              (sampleSource (Some (sampleGamepad [true] []))) eq_refl)
    as (Hray & _).
  split; [exact Hray|]. vm_compute. reflexivity.
Defined.

(** ** What the methods never write *)

(** X17.  No method assigns the props the parent owns or the facade's
    identity: [xrInputSource], [xrSession], [isPointing] and [self] are the
    same after [afterUpdate], a frame, a session event, a scene ray event
    and the destructor, whether the method returns or throws.  Apart from
    frames, these methods also leave both poses, the ray and the stored
    button times alone. *)
Theorem X17_methods_leave_props_alone
    (BUTTON_TRIGGER BUTTON_SQUEEZE : Z) hypot applyQuaternion s :
  let props s' :=
    xrInputSource s' = xrInputSource s ∧ xrSession s' = xrSession s ∧
    isPointing s' = isPointing s ∧ self s' = self s in
  let tracking s' :=
    targetRayPose s' = targetRayPose s ∧ gripPose s' = gripPose s ∧
    _ray s' = _ray s ∧ _buttonPresses s' = _buttonPresses s in
  (∀ env, props (final (_onXrFrame hypot applyQuaternion env s))) ∧
  (props (final (afterUpdate s)) ∧ tracking (final (afterUpdate s))) ∧
  (∀ name,
      props (final (_onSessionEvent BUTTON_TRIGGER BUTTON_SQUEEZE name s)) ∧
      tracking (final (_onSessionEvent BUTTON_TRIGGER BUTTON_SQUEEZE name s))) ∧
  (∀ e,
      props (final (_onSceneRayEvent BUTTON_TRIGGER BUTTON_SQUEEZE e s)) ∧
      tracking (final (_onSceneRayEvent BUTTON_TRIGGER BUTTON_SQUEEZE e s))) ∧
  (∀ scene,
      props (final (destructor scene s)) ∧
      tracking (final (destructor scene s))).
Proof.
  intros props tracking. split; [|split; [|split; [|split]]].
  - intros env.
    by apply (onXrFrame_keeps hypot applyQuaternion props).
  - by apply (afterUpdate_keeps (λ x, props x ∧ tracking x)).
  - intros name. by rewrite onSessionEvent_run.
  - intros e.
    by apply (onSceneRayEvent_keeps BUTTON_TRIGGER BUTTON_SQUEEZE
                (λ x, props x ∧ tracking x)).
  - intros scene. by rewrite destructor_run.
Qed.

(** ** The two input paths, the other way round *)

(** A frame of a source whose gamepad is absent or not standard-mapped, or
    of a facade without a source, does not poll. *)
Lemma onXrFrame_nonstandard hypot aq env s :
  nonStandardOrUnset s →
  _buttonPresses (final (_onXrFrame hypot aq env s)) = _buttonPresses s ∧
  actionsOf (effects (_onXrFrame hypot aq env s)) = [].
Proof.
  intros Hns. destruct (xrInputSource s) as [src|] eqn:Hsrc.
  - specialize (Hns src Hsrc).
    destruct (resolvePoses_run aq env s src Hsrc)
      as (s1 & Hres & _ & _ & Hsrc1 & Hbp1).
    rewrite Hsrc in Hsrc1.
    unfold _onXrFrame.
    rewrite effects_bind, final_bind. cbn [get returned final effects fst snd].
    rewrite effects_bind, final_bind, Hres.
    cbn [returned final effects fst snd].
    rewrite effects_bind, final_bind, (isXrStandardGamepad_run s1 src Hsrc1).
    cbn [returned final effects fst snd].
    rewrite effects_bind, final_bind, Hns.
    cbn [ret returned final effects fst snd].
    destruct (afterUpdate_run s1 src Hsrc1)
      as (s3 & Hupd & _ & _ & _ & _ & _ & _ & _ & _ & Hbp3 & _).
    rewrite Hupd. cbn [returned final effects fst snd].
    split; [congruence|].
    rewrite !actionsOf_app.
    match goal with
    | |- context [actionsOf (RayPointerMotion <$> option_list ?m)] =>
        by destruct m
    end.
  - assert (Hthrow : _onXrFrame hypot aq env s = (s, [], None)).
    { unfold _onXrFrame, resolvePoses, _isXrStandardGamepad, bind, get, deref,
        throw, ret.
      destruct (offsetReferenceSpace env); simpl; rewrite Hsrc; reflexivity. }
    by rewrite Hthrow.
Qed.

Lemma afterUpdate_keeps_untracked :
  keeps (λ s, _buttonPresses s = None ∧ nonStandardOrUnset s) afterUpdate.
Proof.
  apply (afterUpdate_keeps
           (λ s, _buttonPresses s = None ∧ nonStandardOrUnset s));
    by intros.
Qed.

(** X18.  The other half of the exclusion between the two input paths: in
    any history since construction in which the parent never assigns an
    input source with a standard-mapped gamepad, the gamepad is never
    polled: [_buttonPresses] is never even created, and no frame emits an
    action, so that every action of such a facade comes from a session
    event. *)
Theorem X18_no_poll_without_standard_gamepad
    (BUTTON_TRIGGER BUTTON_SQUEEZE : Z) hypot applyQuaternion shared this scene ins :
  Forall nonStandardProps ins →
  let s' := (run BUTTON_TRIGGER BUTTON_SQUEEZE hypot applyQuaternion ins
                 (constructor shared this scene)).1 in
  _buttonPresses s' = None ∧
  ∀ env,
    actionsOf (step BUTTON_TRIGGER BUTTON_SQUEEZE hypot applyQuaternion
                    (InFrame env) s').2 = [].
Proof.
  intros Hall.
  assert (Hinv : ∀ s,
            _buttonPresses s = None ∧ nonStandardOrUnset s →
            let s' := (run BUTTON_TRIGGER BUTTON_SQUEEZE hypot applyQuaternion
                           ins s).1 in
            _buttonPresses s' = None ∧ nonStandardOrUnset s').
  { induction Hall as [|i ins Hi _ IH]; intros s Hs; [done|].
    cbn [run].
    assert (Hstep :
              _buttonPresses (step BUTTON_TRIGGER BUTTON_SQUEEZE hypot
                                   applyQuaternion i s).1 = None
              ∧ nonStandardOrUnset (step BUTTON_TRIGGER BUTTON_SQUEEZE hypot
                                         applyQuaternion i s).1).
    { destruct i as [src sess p| |env|o name|o e]; cbn [step].
      - destruct Hs as [Hbp _]. split; [done|].
        intros x Hx. simpl in Hx. by apply Hi.
      - by apply afterUpdate_keeps_untracked.
      - destruct Hs as [Hbp Hns].
        destruct (onXrFrame_nonstandard hypot applyQuaternion env s Hns)
          as [Hkeep _].
        split; [change ((_onXrFrame hypot applyQuaternion env s).1.1)
                  with (final (_onXrFrame hypot applyQuaternion env s));
                congruence|].
        revert Hns.
        apply (onXrFrame_keeps hypot applyQuaternion nonStandardOrUnset);
          by intros.
      - case_decide; [by rewrite onSessionEvent_run|done].
      - case_decide; [|done].
        revert Hs.
        apply (onSceneRayEvent_keeps_with BUTTON_TRIGGER BUTTON_SQUEEZE
                 (λ x, _buttonPresses x = None ∧ nonStandardOrUnset x));
          [by intros|apply afterUpdate_keeps_untracked]. }
    destruct (step BUTTON_TRIGGER BUTTON_SQUEEZE hypot applyQuaternion i s)
      as [s1 e1].
    specialize (IH s1 Hstep).
    destruct (run BUTTON_TRIGGER BUTTON_SQUEEZE hypot applyQuaternion ins s1)
      as [s2 e2]. exact IH. }
  destruct (Hinv (constructor shared this scene)) as [Hbp Hns]; [by split|].
  cbv zeta. split; [exact Hbp|].
  intros env. cbn [step].
  by destruct (onXrFrame_nonstandard hypot applyQuaternion env _ Hns).
Qed.

(** X18, satisfiable: a source with a gamepad of another mapping, a frame
    and a session event. *)
Lemma X18_no_poll_without_standard_gamepad_witness :
  let g := {| buttons := [{| pressed := true |}]; axes := [1; 1]%float;
              mapping := ""; hapticActuators := None |} in
  let s' := (run 0 1 hypot_sqrt applyQuaternion_three
               [InProps (Some (sampleSource (Some g))) (JSobject 3) true;
                InUpdate;
                InFrame {| offsetReferenceSpace := None;
                           getPose := λ _ _, None; date_now := 1000 |};
                InSessionEvent 3 "select"]
               (constructor Defaults_at_load 7 8)).1 in
  _buttonPresses s' = None.
Proof.
  intros g.
  apply (X18_no_poll_without_standard_gamepad 0 1 hypot_sqrt
           applyQuaternion_three Defaults_at_load 7%nat 8%nat).
  repeat constructor. intros x [= <-]. reflexivity.
Defined.

(** X19.  From construction on, whatever happens short of the destructor,
    the scene handler stays registered for exactly the six scene events on
    the facade's scene: scene events of those types are delivered in every
    later state, and wheel events or events of another scene never are. *)
Theorem X19_scene_listeners_fixed
    (BUTTON_TRIGGER BUTTON_SQUEEZE : Z) hypot applyQuaternion shared this scene ins :
  let s' := (run BUTTON_TRIGGER BUTTON_SQUEEZE hypot applyQuaternion ins
                 (constructor shared this scene)).1 in
  ∀ o ty, (o, ty) ∈ sceneListeners s' ↔ o = scene ∧ ty ∈ SCENE_EVENTS.
Proof.
  intros s' o ty.
  assert (Hsame : sceneListeners s' = sceneListeners (constructor shared this scene)).
  { apply (run_invariant _ _ _ _
             (λ x, sceneListeners x
                   = sceneListeners (constructor shared this scene)));
      try (intros; assumption); [|done].
    intros x Hx. by destruct (afterUpdate_bookkeeping x) as (_ & -> & _). }
  rewrite Hsame. split.
  - apply constructor_onScene.
  - intros [-> Hty]. unfold constructor. cbn [sceneListeners].
    by apply toggleEvents_on_elem.
Qed.
